(** * Movies_DB: the fuzzy search and ranking pipeline of [src/App.jsx]

    A shallow embedding of the search code of the [App] component
    ([preprocessSearchTerm], [generateSearchVariations],
    [levenshteinDistance], [calculateFuzzyScore],
    [calculateRelevanceScore], [fetchMovies]) and the properties of it
    that the specification states.

    Conventions of the embedding.
    - A JavaScript string is a sequence of UTF-16 code units.  The first
      part of the model covers the strings whose code units are below 256
      (ASCII and the Latin-1 block), written as Rocq [string]s, one
      [ascii] per code unit.  On these strings [toLowerCase] and [trim]
      act unit by unit, iterating a string by code point is iterating it
      by code unit, and [encodeURIComponent] always returns.
    - The request batch is modelled a second time on strings of arbitrary
      code units ([Wide]), where [encodeURIComponent] throws on a lone
      surrogate; there the case mapping and the scorer are parameters.
    - A JavaScript number is modelled by an exact rational, extended with
      the two infinities and NaN ([jsnum]).  The rounding of binary64
      arithmetic is not modelled.
    - The arrays of the code are lists; a write at index [length] appends.
    - The network, the JSON bodies and the Appwrite collaborator are
      parameters of the pipeline ([World]).  [updateSearchCount] is
      imported from [./appwrite.js], which this development does not
      cover; where a property depends on what it does, it is modelled
      from the specification ([recordSearch]). *)

From Stdlib Require Import String Ascii List Bool Arith ZArith NArith.
From Stdlib Require Import QArith Qminmax Lia Lqa Sorted Permutation.
Import ListNotations.

Close Scope Q_scope.
Local Open Scope string_scope.
Local Open Scope list_scope.
Local Open Scope nat_scope.

(* ================================================================== *)
(** * The JavaScript built-ins the code relies on                       *)
(* ================================================================== *)

Module Js.

(** ** Strings *)

(** The code units below 256 that [String.prototype.toLowerCase] changes:
    A-Z, and the Latin-1 capitals U+00C0-U+00DE without the
    multiplication sign U+00D7.  Each moves up by 32. *)
Definition isUpperUnit (n : N) : bool :=
  ((65 <=? n) && (n <=? 90))%N
  || ((192 <=? n) && (n <=? 222) && negb (n =? 215))%N.

Definition lowerUnit (c : ascii) : ascii :=
  let n := N_of_ascii c in
  if isUpperUnit n then ascii_of_N (n + 32) else c.

Fixpoint toLowerCase (s : string) : string :=
  match s with
  | EmptyString => EmptyString
  | String c s' => String (lowerUnit c) (toLowerCase s')
  end.

(** White space and line terminators below 256: TAB, LF, VT, FF, CR,
    SPACE and NO-BREAK SPACE. *)
Definition isWhiteSpace (c : ascii) : bool :=
  let n := N_of_ascii c in
  (((9 <=? n) && (n <=? 13)) || (n =? 32) || (n =? 160))%N.

Fixpoint trimStart (s : string) : string :=
  match s with
  | EmptyString => EmptyString
  | String c s' => if isWhiteSpace c then trimStart s' else s
  end.

Fixpoint trimEnd (s : string) : string :=
  match s with
  | EmptyString => EmptyString
  | String c s' =>
      match trimEnd s' with
      | EmptyString => if isWhiteSpace c then EmptyString else String c EmptyString
      | t => String c t
      end
  end.

Definition trim (s : string) : string := trimEnd (trimStart s).

(** [s.substring(a, b)]: the units from [min a b] up to, not including,
    [max a b], both clamped to the length. *)
Definition substring (s : string) (a b : nat) : string :=
  String.substring (Nat.min a b) (Nat.max a b - Nat.min a b) s.

(** [s.substring(a)]: from [a] to the end. *)
Definition substringFrom (s : string) (a : nat) : string :=
  String.substring a (String.length s - a) s.

(** [s.charAt(i)] and, on an index in range, [s[i]]: the one-unit string
    at [i]; [charAt] gives the empty string out of range. *)
Definition charAt (s : string) (i : nat) : string :=
  match String.get i s with
  | Some c => String c EmptyString
  | None => EmptyString
  end.

Definition startsWith (s t : string) : bool := String.prefix t s.

(** [s.indexOf(t, from)] for a non-empty [t]: [-1] when [t] does not
    occur at or after [from]; a negative [from] counts as [0]. *)
Definition indexOf (s t : string) (from : Z) : Z :=
  match String.index (Z.to_nat from) t s with
  | Some k => Z.of_nat k
  | None => (-1)%Z
  end.

Definition includes (s t : string) : bool :=
  match String.index 0 t s with
  | Some _ => true
  | None => false
  end.

(** [s.split(sep)] for a separator of one code unit.  The empty string
    splits into one empty piece; consecutive separators leave empty
    pieces between them. *)
Fixpoint split (sep : ascii) (s : string) : list string :=
  match s with
  | EmptyString => [EmptyString]
  | String c s' =>
      if Ascii.eqb c sep then EmptyString :: split sep s'
      else match split sep s' with
           | w :: ws => String c w :: ws
           | [] => [String c EmptyString]
           end
  end.

(** The code units of a string, as one-unit strings: what
    [for (const ch of s)] visits. *)
Fixpoint units (s : string) : list string :=
  match s with
  | EmptyString => []
  | String c s' => String c EmptyString :: units s'
  end.

(** ** Arrays *)

(** [l.slice(a, b)] for [a <= b]. *)
Definition slice {A : Type} (l : list A) (a b : nat) : list A :=
  firstn (b - a) (skipn a l).

(** [l[i] = v].  A write inside the array replaces, a write at [length]
    appends; a write further out would leave holes, which the arrays of
    this program never have: [None]. *)
Definition arraySet {A : Type} (l : list A) (i : nat) (v : A) : option (list A) :=
  if i <? List.length l then Some (firstn i l ++ v :: skipn (S i) l)
  else if i =? List.length l then Some (l ++ [v])
  else None.

(** [l.findIndex(p)], [-1] when no element satisfies [p]. *)
Fixpoint findIndex {A : Type} (p : A -> bool) (l : list A) : Z :=
  match l with
  | [] => (-1)%Z
  | x :: l' =>
      if p x then 0%Z
      else let k := findIndex p l' in
           if (k <? 0)%Z then (-1)%Z else (k + 1)%Z
  end.

(** [l.filter((x, index, self) => p x index self)]. *)
Fixpoint filterFrom {A : Type} (p : A -> Z -> bool) (i : Z) (l : list A) : list A :=
  match l with
  | [] => []
  | x :: l' => if p x i then x :: filterFrom p (i + 1)%Z l' else filterFrom p (i + 1)%Z l'
  end.

Definition filterIndexed {A : Type} (p : A -> Z -> list A -> bool) (l : list A) : list A :=
  filterFrom (fun x i => p x i l) 0%Z l.

(** ** Object literals *)

(** The names every object literal inherits from [Object.prototype].
    Each holds a function or an object: a truthy value that is neither a
    string nor an array. *)
Definition objectPrototypeKeys : list string :=
  [ "constructor"; "__defineGetter__"; "__defineSetter__"; "hasOwnProperty";
    "__lookupGetter__"; "__lookupSetter__"; "isPrototypeOf";
    "propertyIsEnumerable"; "toString"; "valueOf"; "__proto__";
    "toLocaleString" ].

Inductive Property (A : Type) : Type :=
| Own (a : A)
| Inherited (name : string)
| Undefined.
Arguments Own {A} a.
Arguments Inherited {A} name.
Arguments Undefined {A}.

(** [obj[key]] on an object literal with the own properties [own]. *)
Definition getProperty {A : Type} (own : list (string * A)) (key : string) : Property A :=
  match find (fun kv => String.eqb (fst kv) key) own with
  | Some kv => Own (snd kv)
  | None =>
      if existsb (String.eqb key) objectPrototypeKeys then Inherited key
      else Undefined
  end.

(** ** Numbers *)

Inductive jsnum : Type :=
| Num (q : Q)
| Inf (positive : bool)
| NaN.

Definition ofNat (n : nat) : jsnum := Num (inject_Z (Z.of_nat n)).

Definition add (a b : jsnum) : jsnum :=
  match a, b with
  | NaN, _ | _, NaN => NaN
  | Num x, Num y => Num (x + y)
  | Inf s, Num _ | Num _, Inf s => Inf s
  | Inf s, Inf t => if Bool.eqb s t then Inf s else NaN
  end.

Definition neg (a : jsnum) : jsnum :=
  match a with
  | Num x => Num (- x)
  | Inf s => Inf (negb s)
  | NaN => NaN
  end.

Definition sub (a b : jsnum) : jsnum := add a (neg b).

Definition mul (a b : jsnum) : jsnum :=
  match a, b with
  | NaN, _ | _, NaN => NaN
  | Num x, Num y => Num (x * y)
  | Inf s, Num y | Num y, Inf s =>
      match (y ?= 0)%Q with
      | Eq => NaN
      | Gt => Inf s
      | Lt => Inf (negb s)
      end
  | Inf s, Inf t => Inf (Bool.eqb s t)
  end.

(** [a / b].  The zeros of this program are lengths and counts, so a
    zero divisor is [+0]: [0 / 0] is NaN and [x / 0] an infinity with
    the sign of [x]. *)
Definition div (a b : jsnum) : jsnum :=
  match a, b with
  | NaN, _ | _, NaN => NaN
  | Num x, Num y =>
      match (y ?= 0)%Q with
      | Eq => match (x ?= 0)%Q with
              | Eq => NaN
              | Gt => Inf true
              | Lt => Inf false
              end
      | _ => Num (x / y)
      end
  | Inf s, Num y => Inf (if Qle_bool 0 y then s else negb s)
  | Num _, Inf _ => Num 0
  | Inf _, Inf _ => NaN
  end.

(** [a > b]: false as soon as one side is NaN. *)
Definition gt (a b : jsnum) : bool :=
  match a, b with
  | Num x, Num y => negb (Qle_bool x y)
  | Inf true, Num _ | Inf true, Inf false | Num _, Inf false => true
  | _, _ => false
  end.

(** [Math.max(a, b)] and [Math.min(a, b)]: NaN as soon as one argument is. *)
Definition max (a b : jsnum) : jsnum :=
  match a, b with
  | NaN, _ | _, NaN => NaN
  | _, _ => if gt a b then a else b
  end.

Definition min (a b : jsnum) : jsnum :=
  match a, b with
  | NaN, _ | _, NaN => NaN
  | _, _ => if gt a b then b else a
  end.

(** [x || 0] on an optional number: an absent field and [0] both give [0]. *)
Definition orZero (x : option Q) : jsnum :=
  match x with
  | Some q => Num q
  | None => Num 0
  end.

(** [x || ""] on an optional string. *)
Definition orEmpty (x : option string) : string :=
  match x with
  | Some s => s
  | None => EmptyString
  end.

(** ** Sorting *)

(** [l.sort(cmp)].  ECMAScript fixes the result when the comparator is
    consistent: the stable permutation in which [a] precedes [b] whenever
    [cmp a b < 0].  This insertion sort computes that permutation; on an
    inconsistent comparator (one that meets NaN) it is one of the orders
    an engine may produce.  [cmp x y > 0] moves [x] behind [y]. *)
Section Sort.
Context {A : Type} (cmp : A -> A -> jsnum).

Fixpoint insert (x : A) (l : list A) : list A :=
  match l with
  | [] => [x]
  | y :: l' => if gt (cmp x y) (Num 0) then y :: insert x l' else x :: l
  end.

Definition sort (l : list A) : list A := fold_right insert [] l.
End Sort.

End Js.

(* ================================================================== *)
(** * Exceptions                                                        *)
(* ================================================================== *)

Inductive Exn : Type :=
| TypeError
| SyntaxError
| URIError
| NetworkError
| CounterError
| Error (message : string).

Inductive Result (A : Type) : Type :=
| Ok (a : A)
| Throw (e : Exn).
Arguments Ok {A} a.
Arguments Throw {A} e.

Definition bind {A B : Type} (r : Result A) (k : A -> Result B) : Result B :=
  match r with
  | Ok a => k a
  | Throw e => Throw e
  end.

Notation "x <- e ;; k" := (bind e (fun x => k))
  (at level 61, e at next level, right associativity).

(** A [for] loop over the values [l] of its variable, threading the
    variables it assigns; an exception leaves the loop. *)
Fixpoint forM {A S : Type} (l : list A) (body : A -> S -> Result S) (s : S) : Result S :=
  match l with
  | [] => Ok s
  | x :: l' => s' <- body x s ;; forM l' body s'
  end.

Fixpoint mapM {A B : Type} (f : A -> Result B) (l : list A) : Result (list B) :=
  match l with
  | [] => Ok []
  | x :: l' => y <- f x ;; ys <- mapM f l' ;; Ok (y :: ys)
  end.

(* ================================================================== *)
(** * The search code of [App]                                          *)
(* ================================================================== *)

Import Js.

(** An item of the catalog as the code reads it.  [relevanceScore] is
    the field the pipeline adds to its copies. *)
Record Movie : Type := mkMovie {
  id : Z;
  title : option string;
  overview : option string;
  vote_average : option Q;
  vote_count : option Q;
  relevanceScore : option jsnum
}.

(** A value that is a string, or one of the non-string values an object
    literal inherits. *)
Inductive Value : Type :=
| VString (s : string)
| VObject (name : string).

(** ** [preprocessSearchTerm] (lines 34-52) *)

Definition corrections : list (string * string) :=
  [ ("spiderman", "spider-man");
    ("xmen", "x-men");
    ("batman", "batman");
    ("superman", "superman");
    ("ironman", "iron man");
    ("kerete", "karate");
    ("kerate", "karate");
    ("karete", "karate");
    ("dimon", "demon");
    ("deamon", "demon");
    ("daemon", "demon") ].

Definition preprocessSearchTerm (term : string) : Value :=
  let lowerTerm := trim (toLowerCase term) in
  match getProperty corrections lowerTerm with
  | Own EmptyString => VString term
  | Own v => VString v
  | Inherited name => VObject name
  | Undefined => VString term
  end.

(** ** [generateSearchVariations] (lines 55-92) *)

Definition substitutions : list (string * list string) :=
  [ ("i", ["e"; "a"]);
    ("e", ["i"; "a"]);
    ("a", ["e"; "i"]);
    ("o", ["u"; "a"]);
    ("u", ["o"; "i"]);
    ("y", ["i"; "e"]);
    ("c", ["k"; "s"]);
    ("k", ["c"; "ck"]);
    ("s", ["c"; "z"]);
    ("z", ["s"]);
    ("ph", ["f"]);
    ("f", ["ph"]);
    ("tion", ["sion"]);
    ("sion", ["tion"]) ].

(** The body of the inner loop (lines 82-86). *)
Definition pushVariation (lowerTerm : string) (i : nat) (substitute : string)
    (variations : list string) : Result (list string) :=
  let variation :=
    (substring lowerTerm 0 i ++ substitute ++ substringFrom lowerTerm (i + 1))%string in
  if negb (variation =? lowerTerm)%string && negb (existsb (String.eqb variation) variations)
  then Ok (variations ++ [variation])
  else Ok variations.

(** A term that is not a string has no [toLowerCase]; a table entry that
    is not an array cannot be iterated. *)
Definition generateSearchVariations (term : Value) : Result (list string) :=
  match term with
  | VObject _ => Throw TypeError
  | VString term =>
      let variations := [term] in
      let lowerTerm := toLowerCase term in
      forM (seq 0 (String.length lowerTerm))
        (fun i variations =>
           let char := charAt lowerTerm i in
           match getProperty substitutions char with
           | Own subs => forM subs (pushVariation lowerTerm i) variations
           | Inherited _ => Throw TypeError
           | Undefined => Ok variations
           end)
        variations
  end.

(** ** [levenshteinDistance] (lines 95-121) *)

(** [matrix[i][j]].  A missing row is a TypeError; a missing cell would
    read [undefined] and poison the arithmetic.  The model faults on
    both. *)
Definition getCell (matrix : list (list nat)) (i j : nat) : Result nat :=
  match nth_error matrix i with
  | Some row =>
      match nth_error row j with
      | Some v => Ok v
      | None => Throw TypeError
      end
  | None => Throw TypeError
  end.

(** [matrix[i] = row]. *)
Definition setRow (matrix : list (list nat)) (i : nat) (row : list nat)
    : Result (list (list nat)) :=
  match arraySet matrix i row with
  | Some matrix' => Ok matrix'
  | None => Throw TypeError
  end.

(** [matrix[i][j] = v]. *)
Definition setCell (matrix : list (list nat)) (i j v : nat) : Result (list (list nat)) :=
  match nth_error matrix i with
  | Some row =>
      match arraySet row j v with
      | Some row' => setRow matrix i row'
      | None => Throw TypeError
      end
  | None => Throw TypeError
  end.

(** The body of the inner loop (lines 108-116). *)
Definition cellBody (str1 str2 : string) (i j : nat) (matrix : list (list nat))
    : Result (list (list nat)) :=
  if (charAt str2 (i - 1) =? charAt str1 (j - 1))%string then
    v <- getCell matrix (i - 1) (j - 1) ;;
    setCell matrix i j v
  else
    substitution <- getCell matrix (i - 1) (j - 1) ;;
    insertion <- getCell matrix i (j - 1) ;;
    deletion <- getCell matrix (i - 1) j ;;
    setCell matrix i j
      (Nat.min (substitution + 1) (Nat.min (insertion + 1) (deletion + 1))).

Definition levenshteinDistance (str1 str2 : string) : Result nat :=
  matrix <- forM (seq 0 (S (String.length str2)))
              (fun i matrix => setRow matrix i [i]) [] ;;
  matrix <- forM (seq 0 (S (String.length str1)))
              (fun j matrix => setCell matrix 0 j j) matrix ;;
  matrix <- forM (seq 1 (String.length str2))
              (fun i matrix =>
                 forM (seq 1 (String.length str1)) (cellBody str1 str2 i) matrix)
              matrix ;;
  getCell matrix (String.length str2) (String.length str1).

(** ** [calculateFuzzyScore] (lines 289-302) *)

Definition calculateFuzzyScore (text query : string) : jsnum :=
  let '(matchCount, lastIndex) :=
    fold_left
      (fun '(matchCount, lastIndex) char =>
         let index := indexOf text char (lastIndex + 1)%Z in
         if (index >? lastIndex)%Z then (matchCount + 1, index)
         else (matchCount, lastIndex))
      (units query) (0, (-1)%Z) in
  div (ofNat matchCount) (ofNat (String.length query)).

(** ** [calculateRelevanceScore] (lines 231-286) *)

(** The ratio of lines 257-259 and 270-272. *)
Definition similarity (a b : string) : Result jsnum :=
  distance <- levenshteinDistance a b ;;
  let maxLen := Nat.max (String.length a) (String.length b) in
  Ok (div (sub (ofNat maxLen) (ofNat distance)) (ofNat maxLen)).

(** The body of the inner word loop (lines 257-264). *)
Definition wordBody (titleWord queryWord : string) (bestWordMatch : jsnum) : Result jsnum :=
  wordSimilarity <- similarity titleWord queryWord ;;
  if gt wordSimilarity (Num (6 # 10))
  then Ok (max bestWordMatch (mul wordSimilarity (Num 60)))
  else Ok bestWordMatch.

Definition calculateRelevanceScore (movie : Movie) (query : string) : Result jsnum :=
  let queryLower := toLowerCase query in
  match title movie with
  | None => Throw TypeError
  | Some movieTitle =>
      let titleLower := toLowerCase movieTitle in
      let overviewLower := toLowerCase (orEmpty (overview movie)) in
      let score := Num 0 in
      let score := if (titleLower =? queryLower)%string then add score (Num 100) else score in
      let score := if includes titleLower queryLower then add score (Num 80) else score in
      let score := if startsWith titleLower queryLower then add score (Num 70) else score in
      let score := if includes overviewLower queryLower then add score (Num 30) else score in
      let titleWords := split " " titleLower in
      let queryWords := split " " queryLower in
      bestWordMatch <-
        forM titleWords
          (fun titleWord bestWordMatch =>
             forM queryWords
               (wordBody titleWord) bestWordMatch)
          (Num 0) ;;
      let score := add score bestWordMatch in
      titleSimilarity <- similarity titleLower queryLower ;;
      let score := if gt titleSimilarity (Num (1 # 2))
                   then add score (mul titleSimilarity (Num 40)) else score in
      let score := add score (mul (calculateFuzzyScore titleLower queryLower) (Num 20)) in
      let score := add score (mul (orZero (vote_average movie)) (Num 1)) in
      let score := add score (min (div (orZero (vote_count movie)) (Num 1000)) (Num 5)) in
      Ok score
  end.

(** ** The collaborators of [fetchMovies] *)

Inductive Request : Type :=
| SearchMovie (query : string)   (* /search/movie?query=... *)
| DiscoverMovie.                 (* /discover/movie?sort_by=popularity.desc *)

(** What [response.json()] gives: a rejection (or the body [null],
    whose [results] cannot be read), or a value whose [results] is an
    array of items or is missing. *)
Inductive Body : Type :=
| Unparsable
| Parsed (results : option (list Movie)).

(** How the promise of one [fetch] settles: rejected (the request could
    not be sent or received), or fulfilled with a response. *)
Inductive Settled : Type :=
| Rejected
| Fulfilled (ok : bool) (body : Body).

(** How the promise of [updateSearchCount] settles. *)
Inductive Counted : Type :=
| CountResolved
| CountRejected.

(** The world of one call of [fetchMovies]: how the [k]-th request of
    the call settles, and how the counting call settles.
    [updateSearchCount] is imported from [appwrite.js]; the pipeline
    sees only its promise. *)
Record World : Type := mkWorld {
  fetch : nat -> Request -> Settled;
  updateSearchCount : string -> Movie -> Counted
}.

(** How the write of the counter to the persistent store ends. *)
Inductive StoreOutcome : Type :=
| Stored
| StoreFailed.

(** Modelled from the spec: [updateSearchCount] of [./appwrite.js], which
    is not under src/.  Section 6 of the specification gives the
    collaborator as "recordSearch(query, topItem) -> void, best-effort,
    failures must not propagate to the caller of the search core", and
    section 7 has its error "always swallowed; logged only, never
    surfaced".  So the call ends, and its promise resolves, whether the
    store took the write or failed. *)
Definition recordSearch (store : string -> Movie -> StoreOutcome)
    (query : string) (topItem : Movie) : Counted :=
  match store query topItem with
  | Stored => CountResolved
  | StoreFailed => CountResolved
  end.

(** The state of the component that [fetchMovies] writes, and a log of
    what it did to its collaborators. *)
Record State : Type := mkState {
  movieList : list Movie;
  errorMessage : string;
  isLoading : bool;
  dispatched : list Request;
  recorded : list (string * Movie);
  logged : list Exn
}.

Definition setMovieList (l : list Movie) (s : State) : State :=
  mkState l (errorMessage s) (isLoading s) (dispatched s) (recorded s) (logged s).
Definition setErrorMessage (m : string) (s : State) : State :=
  mkState (movieList s) m (isLoading s) (dispatched s) (recorded s) (logged s).
Definition setIsLoading (b : bool) (s : State) : State :=
  mkState (movieList s) (errorMessage s) b (dispatched s) (recorded s) (logged s).
Definition dispatch (rs : list Request) (s : State) : State :=
  mkState (movieList s) (errorMessage s) (isLoading s) (dispatched s ++ rs) (recorded s) (logged s).
Definition record (q : string) (m : Movie) (s : State) : State :=
  mkState (movieList s) (errorMessage s) (isLoading s) (dispatched s) (recorded s ++ [(q, m)]) (logged s).
Definition consoleError (e : Exn) (s : State) : State :=
  mkState (movieList s) (errorMessage s) (isLoading s) (dispatched s) (recorded s) (logged s ++ [e]).

(** Computations that write the state and may throw. *)
Definition M (A : Type) : Type := State -> Result A * State.

Definition ret {A : Type} (a : A) : M A := fun s => (Ok a, s).
Definition lift {A : Type} (r : Result A) : M A := fun s => (r, s).
Definition effect (f : State -> State) : M unit := fun s => (Ok tt, f s).
Definition bindM {A B : Type} (m : M A) (k : A -> M B) : M B :=
  fun s => match m s with
           | (Ok a, s') => k a s'
           | (Throw e, s') => (Throw e, s')
           end.

Notation "x <~ e ;; k" := (bindM e (fun x => k))
  (at level 61, e at next level, right associativity).
Notation "e ;;; k" := (bindM e (fun _ => k))
  (at level 61, right associativity).

(** [try { body } catch (e) { handler e } finally { final }], for a
    handler and a final block that do not throw. *)
Definition tryCatchFinally (body : M unit) (handler : Exn -> State -> State)
    (final : State -> State) (s : State) : State :=
  match body s with
  | (Ok _, s') => final s'
  | (Throw e, s') => final (handler e s')
  end.

(** ** [fetchMovies] (lines 123-228) *)

(** The query strings of the batch (lines 136-175), in the order the
    array literal evaluates them. *)
Definition searchQueries (processedQuery : string) (searchVariations : list string)
    : list string :=
  [processedQuery]
  ++ slice searchVariations 1 4
  ++ (if includes processedQuery " " then split " " processedQuery else [])
  ++ [substring processedQuery 0 3].

(** How the requests [rs], issued in this order, settle. *)
Definition settle (w : World) (rs : list Request) : list Settled :=
  map (fun kr => fetch w (fst kr) (snd kr)) (combine (seq 0 (List.length rs)) rs).

(** Every [fetch] of the array literal is issued before anything is
    awaited.  The texts pass through [encodeURIComponent], which returns
    on every string of this part (none holds a surrogate); its throw is
    modelled in the part on strings of any code units ([Wide]). *)
Definition fetchAll (w : World) (rs : list Request) : M (list Settled) :=
  fun s => (Ok (settle w rs), dispatch rs s).

(** [await Promise.all(promises)]: the responses when every promise is
    fulfilled, a rejection as soon as one is rejected. *)
Fixpoint awaitAll (l : list Settled) : Result (list (bool * Body)) :=
  match l with
  | [] => Ok []
  | Rejected :: _ => Throw NetworkError
  | Fulfilled ok body :: l' =>
      match awaitAll l' with
      | Ok rs => Ok ((ok, body) :: rs)
      | Throw e => Throw e
      end
  end.

Definition json (body : Body) : Result (option (list Movie)) :=
  match body with
  | Unparsable => Throw SyntaxError
  | Parsed results => Ok results
  end.

(** Lines 179-186. *)
Definition collectResults (responses : list (bool * Body)) : Result (list Movie) :=
  forM responses
    (fun response allResults =>
       if fst response then
         data <- json (snd response) ;;
         match data with
         | Some results => Ok (allResults ++ results)
         | None => Ok allResults
         end
       else Ok allResults)
    [].

(** Lines 189-192. *)
Definition uniqueResults (allResults : list Movie) : list Movie :=
  filterIndexed
    (fun movie index self =>
       (index =? findIndex (fun m => (id m =? id movie)%Z) self)%Z)
    allResults.

(** [{ ...movie, relevanceScore: score }]. *)
Definition withScore (movie : Movie) (score : jsnum) : Movie :=
  mkMovie (id movie) (title movie) (overview movie) (vote_average movie)
          (vote_count movie) (Some score).

(** [movie.relevanceScore] as a number in a subtraction. *)
Definition scoreOf (movie : Movie) : jsnum :=
  match relevanceScore movie with
  | Some v => v
  | None => NaN
  end.

(** Lines 195-203. *)
Definition rankResults (query : string) (unique : list Movie) : Result (list Movie) :=
  scoredResults <-
    mapM (fun movie =>
            score <- calculateRelevanceScore movie query ;;
            Ok (withScore movie score))
         unique ;;
  Ok (slice (sort (fun a b => sub (scoreOf b) (scoreOf a)) scoredResults) 0 20).

(** [await updateSearchCount(query, sortedResults[0])] (line 208): the
    call is made, and the [await] continues with a promise that resolved
    and throws with one that was rejected.  Which of the two the
    collaborator can do is its own matter; the one of the specification
    ([recordSearch]) always resolves. *)
Definition awaitCount (w : World) (query : string) (top : Movie) : M unit :=
  fun s => match updateSearchCount w query top with
           | CountResolved => (Ok tt, record query top s)
           | CountRejected => (Throw CounterError, record query top s)
           end.

(** Lines 132-203: from the query to [sortedResults]. *)
Definition searchResults (w : World) (query : string) : M (list Movie) :=
  let processedQuery := preprocessSearchTerm query in
  searchVariations <~ lift (generateSearchVariations processedQuery) ;;
  match processedQuery with
  | VObject _ => lift (Throw TypeError)
  | VString processedQuery =>
      promises <~ fetchAll w (map SearchMovie (searchQueries processedQuery searchVariations)) ;;
      responses <~ lift (awaitAll promises) ;;
      allResults <~ lift (collectResults responses) ;;
      lift (rankResults query (uniqueResults allResults))
  end.

(** Lines 132-209: the branch of a non-empty query. *)
Definition searchBranch (w : World) (query : string) : M unit :=
  sortedResults <~ searchResults w query ;;
  effect (setMovieList sortedResults) ;;;
  match sortedResults with
  | top :: _ => awaitCount w query top
  | [] => ret tt
  end.

(** Lines 211-220: the branch of the empty query. *)
Definition discoverBranch (w : World) : M unit :=
  promises <~ fetchAll w [DiscoverMovie] ;;
  responses <~ lift (awaitAll promises) ;;
  match responses with
  | (ok, body) :: _ =>
      if negb ok then lift (Throw (Error "Failed to fetch movies"))
      else
        data <~ lift (json body) ;;
        effect (setMovieList (match data with Some results => results | None => [] end))
  | [] => ret tt
  end.

Definition errorText : string := "Error fetching movies. Please try again later.".

Definition fetchMovies (w : World) (query : string) (s : State) : State :=
  let s := setIsLoading true s in
  let s := setErrorMessage "" s in
  tryCatchFinally
    (match query with
     | EmptyString => discoverBranch w
     | _ => searchBranch w query
     end)
    (fun error s => setErrorMessage errorText (consoleError error s))
    (setIsLoading false)
    s.

(** ** What the component shows (lines 356-370) *)

Inductive View : Type :=
| Spinner
| ErrorText (message : string)
| NoMoviesFound
| MovieCards (movies : list Movie).

Definition render (searchTerm : string) (s : State) : View :=
  if isLoading s then Spinner
  else match errorMessage s with
       | String _ _ => ErrorText (errorMessage s)
       | EmptyString =>
           match movieList s, searchTerm with
           | [], String _ _ => NoMoviesFound
           | _, _ => MovieCards (movieList s)
           end
       end.

(* ================================================================== *)
(** * Specification-level definitions                                   *)
(* ================================================================== *)

(** ** The table of the edit distance *)

(** The table that the dynamic program fills: the cell of row [i] and
    column [j], by the recurrence of lines 99-116. *)
Fixpoint levCell (str1 str2 : string) (i j : nat) {struct i} : nat :=
  match i with
  | 0 => j
  | S i' =>
      (fix row (j : nat) : nat :=
         match j with
         | 0 => S i'
         | S j' =>
             if (charAt str2 i' =? charAt str1 j')%string
             then levCell str1 str2 i' j'
             else Nat.min (levCell str1 str2 i' j' + 1)
                    (Nat.min (row j' + 1) (levCell str1 str2 i' (S j') + 1))
         end) j
  end.

Definition levRow (str1 str2 : string) (i n : nat) : list nat :=
  map (levCell str1 str2 i) (seq 0 n).

(** The rows of the table that are complete after [i] rounds of the
    outer loop. *)
Definition rowsDone (str1 str2 : string) (i : nat) : list (list nat) :=
  map (fun k => levRow str1 str2 k (S (String.length str1))) (seq 0 i).

(** ** Scores *)

(** A number that is neither NaN nor infinite; one that is moreover not
    negative. *)
Definition finite (v : jsnum) : Prop := exists q, v = Num q.
Definition nonneg (v : jsnum) : Prop := exists q, v = Num q /\ (0 <= q)%Q.

(** The data model's reading of the popularity fields: a rating and a
    vote count, when present, are not negative. *)
Definition popularityNonNegative (movie : Movie) : Prop :=
  match vote_average movie with Some v => (0 <= v)%Q | None => True end /\
  match vote_count movie with Some c => (0 <= c)%Q | None => True end.

(** ** Deduplication, as the specification words it *)

(** Stable dedup by identifier, in first-seen order: an item is kept
    when its identifier has not been seen before. *)
Fixpoint dedupById (seen : list Z) (l : list Movie) : list Movie :=
  match l with
  | [] => []
  | movie :: l' =>
      if existsb (Z.eqb (id movie)) seen then dedupById seen l'
      else movie :: dedupById (id movie :: seen) l'
  end.

Definition hasId (i : Z) (movie : Movie) : bool := (id movie =? i)%Z.

(** ** Variations, as the specification words them *)

(** The variations as the specification words them.  The substitutes
    applicable at a position are those of the table entries whose key
    is the character there; a candidate is the lower-cased term with
    that one position replaced; the result is the term, followed by the
    candidates in scanning order, without those equal to the lower-cased
    term and without those produced before. *)
Definition applicableTo (key : string) : list string :=
  flat_map snd (filter (fun entry => (fst entry =? key)%string) substitutions).

Definition replaceAt (lowerTerm : string) (i : nat) (substitute : string) : string :=
  (substring lowerTerm 0 i ++ substitute ++ substringFrom lowerTerm (i + 1))%string.

Definition candidatesAt (lowerTerm : string) (i : nat) : list string :=
  map (replaceAt lowerTerm i) (applicableTo (charAt lowerTerm i)).

Definition candidates (lowerTerm : string) : list string :=
  flat_map (candidatesAt lowerTerm) (seq 0 (String.length lowerTerm)).

Fixpoint appendNew (produced cs : list string) : list string :=
  match cs with
  | [] => produced
  | c :: cs' =>
      if existsb (String.eqb c) produced then appendNew produced cs'
      else appendNew (produced ++ [c]) cs'
  end.

Definition differsFrom (lowerTerm c : string) : bool := negb (c =? lowerTerm)%string.

Definition specVariations (term : string) : list string :=
  let lowerTerm := toLowerCase term in
  appendNew [term] (filter (differsFrom lowerTerm) (candidates lowerTerm)).

(** ** Ranking and the pipeline *)

(** [a] is ranked no lower than [b]: both scores are numbers and the
    score of [a] is at least the score of [b]. *)
Definition scoreGe (a b : Movie) : Prop :=
  exists x y, scoreOf a = Num x /\ scoreOf b = Num y /\ (y <= x)%Q.

Definition finiteScore (movie : Movie) : Prop := finite (scoreOf movie).

(** The comparator of line 202. *)
Definition byScoreDescending (a b : Movie) : jsnum := sub (scoreOf b) (scoreOf a).

(** The batch of a processed query, and the ranked list that its
    responses lead to. *)
Definition batchOf (processedQuery : string) : list Request :=
  map SearchMovie (searchQueries processedQuery (specVariations processedQuery)).

Definition rankedOf (w : World) (query processedQuery : string) : Result (list Movie) :=
  responses <- awaitAll (settle w (batchOf processedQuery)) ;;
  allResults <- collectResults responses ;;
  rankResults query (uniqueResults allResults).

(** The state after the [try] block threw [e] in state [s]. *)
Definition failed (e : Exn) (s : State) : State :=
  setIsLoading false (setErrorMessage errorText (consoleError e s)).

(** The state in which [fetchMovies] enters its [try] block. *)
Definition entered (s : State) : State := setErrorMessage "" (setIsLoading true s).

(** The batch as the specification words it: the per-word requests are
    the whitespace-delimited words of the processed query. *)
Fixpoint splitWhen (sep : ascii -> bool) (s : string) : list string :=
  match s with
  | EmptyString => [EmptyString]
  | String c s' =>
      if sep c then EmptyString :: splitWhen sep s'
      else match splitWhen sep s' with
           | w :: ws => String c w :: ws
           | [] => [String c EmptyString]
           end
  end.

Definition whitespaceWords (s : string) : list string :=
  filter (fun w => negb (w =? "")%string) (splitWhen isWhiteSpace s).

Definition specQueries (processedQuery : string) (searchVariations : list string)
    : list string :=
  [processedQuery]
  ++ slice searchVariations 1 4
  ++ (if includes processedQuery " " then whitespaceWords processedQuery else [])
  ++ [substring processedQuery 0 3].

(** ** Sample worlds and states *)

Definition sampleMovie (i : Z) (t : string) : Movie :=
  mkMovie i (Some t) None (Some (7 # 1)%Q) (Some (2000 # 1)%Q) None.

Definition samplePage : list Movie :=
  [sampleMovie 1 "Iron Man"; sampleMovie 2 "Iron"; sampleMovie 1 "Iron Man"].

(** Every request succeeds with the same page; the counter works. *)
Definition catalogWorld : World :=
  mkWorld (fun _ _ => Fulfilled true (Parsed (Some samplePage))) (fun _ _ => CountResolved).

(** As [catalogWorld], with the counter of the specification on a store
    that fails every write. *)
Definition storeDownWorld : World :=
  mkWorld (fetch catalogWorld) (recordSearch (fun _ _ => StoreFailed)).

(** Every request is answered with a non-success status. *)
Definition serviceErrorWorld : World :=
  mkWorld (fun _ _ => Fulfilled false Unparsable) (fun _ _ => CountResolved).

(** No request can be sent. *)
Definition networkDownWorld : World :=
  mkWorld (fun _ _ => Rejected) (fun _ _ => CountResolved).

Definition idle : State := mkState [] "" false [] [] [].

(** The component showing the results of an earlier search. *)
Definition showing (l : list Movie) : State := mkState l "" false [] [] [].

(** A request that failed: rejected in transport, or answered with a
    non-success status. *)
Definition failedRequest (o : Settled) : Prop :=
  match o with
  | Rejected => True
  | Fulfilled ok _ => ok = false
  end.

Definition isRejected (o : Settled) : bool :=
  match o with
  | Rejected => true
  | Fulfilled _ _ => false
  end.

(** The alignments of two strings, built column by column from the
    left, and their cost: a column keeps a character, substitutes one
    character for another, deletes a character of the first string or
    inserts a character of the second; every column but a kept character
    costs one. *)
Inductive Alignment : string -> string -> nat -> Prop :=
| align_empty : Alignment "" "" 0
| align_keep a b n c :
    Alignment a b n -> Alignment (a ++ String c "") (b ++ String c "") n
| align_substitute a b n c c' :
    Alignment a b n -> Alignment (a ++ String c "") (b ++ String c' "") (S n)
| align_delete a b n c :
    Alignment a b n -> Alignment (a ++ String c "") b (S n)
| align_insert a b n c :
    Alignment a b n -> Alignment a (b ++ String c "") (S n).

(** The first [k] characters of [s]. *)
Definition prefixOf (k : nat) (s : string) : string := String.substring 0 k s.

(** The scan of [calculateFuzzyScore] with the position from which the
    text is searched next in place of [lastIndex]. *)
Fixpoint scanFrom (text : string) (chars : list string) (next matchCount : nat) : nat :=
  match chars with
  | [] => matchCount
  | char :: chars' =>
      match String.index next char text with
      | Some k => scanFrom text chars' (S k) (S matchCount)
      | None => scanFrom text chars' next matchCount
      end
  end.

(** [query] is a subsequence of [text]: its characters occur in [text]
    in the same order, not necessarily side by side. *)
Inductive Subsequence : string -> string -> Prop :=
| sub_empty text : Subsequence "" text
| sub_skip query c text : Subsequence query text -> Subsequence query (String c text)
| sub_take query c text :
    Subsequence query text -> Subsequence (String c query) (String c text).

(** The characters [chars] occur in [text] at increasing positions, the
    first of them at [next] or later. *)
Inductive OccurFrom (text : string) : nat -> list string -> Prop :=
| occur_none next : OccurFrom text next []
| occur_at next k c chars :
    next <= k -> String.get k text = Some c -> OccurFrom text (S k) chars ->
    OccurFrom text next (String c "" :: chars).

(** The popularity boost of lines 282-283, a function of the rating and
    the vote count alone. *)
Definition popularityBoost (movie : Movie) (score : jsnum) : jsnum :=
  add (add score (mul (orZero (vote_average movie)) (Num 1)))
      (min (div (orZero (vote_count movie)) (Num 1000)) (Num 5)).

(** A best word match so far: a number between 0 and 60. *)
Definition wordMatch (v : jsnum) : Prop := exists q, v = Num q /\ (0 <= q <= 60)%Q.

(** No code unit of [s] is one that [toLowerCase] changes. *)
Fixpoint noUpper (s : string) : bool :=
  match s with
  | EmptyString => true
  | String c s' => negb (isUpperUnit (N_of_ascii c)) && noUpper s'
  end.

(** What the handler logs when the discover request settles in a way
    that fails the search. *)
Definition discoverFailure (outcome : Settled) : Exn :=
  match outcome with
  | Rejected => NetworkError
  | Fulfilled false _ => Error "Failed to fetch movies"
  | Fulfilled true _ => SyntaxError
  end.

(** The items that a response contributes to the merge. *)
Definition pageOf (response : bool * Body) : list Movie :=
  match response with
  | (true, Parsed (Some results)) => results
  | _ => []
  end.

Definition unparsableSuccess (response : bool * Body) : bool :=
  match response with
  | (true, Unparsable) => true
  | _ => false
  end.

(* ================================================================== *)
(** * The request batch on strings of any code units                    *)
(* ================================================================== *)

(** The texts of the requests pass through [encodeURIComponent] (lines
    139, 149, 161 and 170), which throws a URIError on a string that
    holds half of a surrogate pair.  Such a text arises from a query
    with a character outside the Basic Multilingual Plane, when
    [substring(0, 3)], a substitution or the split cuts its pair.  No
    string of code units below 256 does this, so this part models lines
    34-92 and 123-228 once more, on strings of arbitrary UTF-16 code
    units.  Two things are parameters of it: the case mapping of the
    engine ([toLowerCase], Unicode's) and the scorer
    ([calculateRelevanceScore], whose model above is on the strings of
    the first part); the items, the responses and the arrays are those of
    the first part. *)
Module Wide.

(** ** Strings *)

(** A string is the list of its UTF-16 code units, numbers below 65536. *)
Definition jsstring : Type := list N.

(** A string literal of the source; all of them are ASCII. *)
Definition js (s : string) : jsstring := map N_of_ascii (list_ascii_of_string s).

(** [a === b] on strings. *)
Fixpoint eqb (a b : jsstring) : bool :=
  match a, b with
  | [], [] => true
  | c :: a', d :: b' => (c =? d)%N && eqb a' b'
  | _, _ => false
  end.

(** The two halves of a surrogate pair: U+D800-U+DBFF and
    U+DC00-U+DFFF. *)
Definition isHighSurrogate (c : N) : bool := ((55296 <=? c) && (c <=? 56319))%N.
Definition isLowSurrogate (c : N) : bool := ((56320 <=? c) && (c <=? 57343))%N.

(** Every surrogate of [s] is half of a pair: a high one is followed by
    a low one, and a low one follows a high one. *)
Fixpoint wellFormed (s : jsstring) : bool :=
  match s with
  | [] => true
  | c :: s' =>
      if isHighSurrogate c then
        match s' with
        | d :: s'' => isLowSurrogate d && wellFormed s''
        | [] => false
        end
      else negb (isLowSurrogate c) && wellFormed s'
  end.

(** [encodeURIComponent(s)] throws a URIError when [s] holds a lone
    surrogate.  Otherwise it returns the percent-encoded text, from which
    [s] can be read back; the model keeps [s] in its place. *)
Definition encodeURIComponent (s : jsstring) : Result jsstring :=
  if wellFormed s then Ok s else Throw URIError.

(** What [trim] removes: the white space and the line terminators of
    ECMAScript. *)
Definition isWhiteSpace (c : N) : bool :=
  (((9 <=? c) && (c <=? 13)) || (c =? 32) || (c =? 160) || (c =? 5760)
   || ((8192 <=? c) && (c <=? 8202)) || (c =? 8232) || (c =? 8233)
   || (c =? 8239) || (c =? 8287) || (c =? 12288) || (c =? 65279))%N.

Fixpoint trimStart (s : jsstring) : jsstring :=
  match s with
  | [] => []
  | c :: s' => if isWhiteSpace c then trimStart s' else s
  end.

Fixpoint trimEnd (s : jsstring) : jsstring :=
  match s with
  | [] => []
  | c :: s' =>
      match trimEnd s' with
      | [] => if isWhiteSpace c then [] else [c]
      | t => c :: t
      end
  end.

Definition trim (s : jsstring) : jsstring := trimEnd (trimStart s).

(** [s.substring(a, b)] and [s.substring(a)], by code units. *)
Definition substring (s : jsstring) (a b : nat) : jsstring :=
  firstn (Nat.max a b - Nat.min a b) (skipn (Nat.min a b) s).

Definition substringFrom (s : jsstring) (a : nat) : jsstring := skipn a s.

(** [s[i]] on an index in range: the one-unit string at [i]. *)
Definition charAt (s : jsstring) (i : nat) : jsstring :=
  match nth_error s i with
  | Some c => [c]
  | None => []
  end.

Fixpoint startsWith (s t : jsstring) : bool :=
  match t, s with
  | [], _ => true
  | c :: t', d :: s' => (c =? d)%N && startsWith s' t'
  | _ :: _, [] => false
  end.

Fixpoint includes (s t : jsstring) : bool :=
  startsWith s t
  || match s with
     | [] => false
     | _ :: s' => includes s' t
     end.

(** [s.split(sep)] for a separator of one code unit. *)
Fixpoint split (sep : N) (s : jsstring) : list jsstring :=
  match s with
  | [] => [[]]
  | c :: s' =>
      if (c =? sep)%N then [] :: split sep s'
      else match split sep s' with
           | w :: ws => (c :: w) :: ws
           | [] => [[c]]
           end
  end.

(** The code unit of the space character. *)
Definition space : N := 32%N.

(** ** Object literals *)

Inductive Property (A : Type) : Type :=
| Own (a : A)
| Inherited
| Undefined.
Arguments Own {A} a.
Arguments Inherited {A}.
Arguments Undefined {A}.

(** [obj[key]] on an object literal with the own properties [own]. *)
Definition getProperty {A : Type} (own : list (jsstring * A)) (key : jsstring) : Property A :=
  match find (fun kv => eqb (fst kv) key) own with
  | Some kv => Own (snd kv)
  | None =>
      if existsb (eqb key) (map js objectPrototypeKeys) then Inherited
      else Undefined
  end.

(** A value that is a string, or one of the non-string values an object
    literal inherits. *)
Inductive Value : Type :=
| VString (s : jsstring)
| VObject.

(** ** The collaborators and the state *)

Inductive Request : Type :=
| SearchMovie (query : jsstring)   (* /search/movie?query=... *)
| DiscoverMovie.                   (* /discover/movie?sort_by=popularity.desc *)

Record World : Type := mkWorld {
  fetch : nat -> Request -> Settled;
  updateSearchCount : jsstring -> Movie -> Counted
}.

Record State : Type := mkState {
  movieList : list Movie;
  errorMessage : string;
  isLoading : bool;
  dispatched : list Request;
  recorded : list (jsstring * Movie);
  logged : list Exn
}.

Definition setMovieList (l : list Movie) (s : State) : State :=
  mkState l (errorMessage s) (isLoading s) (dispatched s) (recorded s) (logged s).
Definition setErrorMessage (m : string) (s : State) : State :=
  mkState (movieList s) m (isLoading s) (dispatched s) (recorded s) (logged s).
Definition setIsLoading (b : bool) (s : State) : State :=
  mkState (movieList s) (errorMessage s) b (dispatched s) (recorded s) (logged s).
Definition dispatch (rs : list Request) (s : State) : State :=
  mkState (movieList s) (errorMessage s) (isLoading s) (dispatched s ++ rs) (recorded s) (logged s).
Definition record (q : jsstring) (m : Movie) (s : State) : State :=
  mkState (movieList s) (errorMessage s) (isLoading s) (dispatched s) (recorded s ++ [(q, m)]) (logged s).
Definition consoleError (e : Exn) (s : State) : State :=
  mkState (movieList s) (errorMessage s) (isLoading s) (dispatched s) (recorded s) (logged s ++ [e]).

Definition M (A : Type) : Type := State -> Result A * State.

Definition ret {A : Type} (a : A) : M A := fun s => (Ok a, s).
Definition lift {A : Type} (r : Result A) : M A := fun s => (r, s).
Definition effect (f : State -> State) : M unit := fun s => (Ok tt, f s).
Definition bindM {A B : Type} (m : M A) (k : A -> M B) : M B :=
  fun s => match m s with
           | (Ok a, s') => k a s'
           | (Throw e, s') => (Throw e, s')
           end.

#[local, warnings="-notation-overridden"] Notation "x <~ e ;; k" := (bindM e (fun x => k))
  (at level 61, e at next level, right associativity).
#[local, warnings="-notation-overridden"] Notation "e ;;; k" := (bindM e (fun _ => k))
  (at level 61, right associativity).

Definition tryCatchFinally (body : M unit) (handler : Exn -> State -> State)
    (final : State -> State) (s : State) : State :=
  match body s with
  | (Ok _, s') => final s'
  | (Throw e, s') => final (handler e s')
  end.

(** ** The search code *)

Section Engine.
Variable toLowerCase : jsstring -> jsstring.
Variable calculateRelevanceScore : Movie -> jsstring -> Result jsnum.

(** [preprocessSearchTerm] (lines 34-52), with the table of the first
    part. *)
Definition corrections : list (jsstring * jsstring) :=
  map (fun entry => (js (fst entry), js (snd entry))) corrections.

Definition preprocessSearchTerm (term : jsstring) : Value :=
  let lowerTerm := trim (toLowerCase term) in
  match getProperty corrections lowerTerm with
  | Own [] => VString term
  | Own v => VString v
  | Inherited => VObject
  | Undefined => VString term
  end.

(** [generateSearchVariations] (lines 55-92), with the table of the
    first part. *)
Definition substitutions : list (jsstring * list jsstring) :=
  map (fun entry => (js (fst entry), map js (snd entry))) substitutions.

Definition pushVariation (lowerTerm : jsstring) (i : nat) (substitute : jsstring)
    (variations : list jsstring) : Result (list jsstring) :=
  let variation := substring lowerTerm 0 i ++ substitute ++ substringFrom lowerTerm (i + 1) in
  if negb (eqb variation lowerTerm) && negb (existsb (eqb variation) variations)
  then Ok (variations ++ [variation])
  else Ok variations.

Definition generateSearchVariations (term : Value) : Result (list jsstring) :=
  match term with
  | VObject => Throw TypeError
  | VString term =>
      let variations := [term] in
      let lowerTerm := toLowerCase term in
      forM (seq 0 (List.length lowerTerm))
        (fun i variations =>
           let char := charAt lowerTerm i in
           match getProperty substitutions char with
           | Own subs => forM subs (pushVariation lowerTerm i) variations
           | Inherited => Throw TypeError
           | Undefined => Ok variations
           end)
        variations
  end.

(** The texts of the batch (lines 136-175), in the order the array
    literal evaluates them. *)
Definition searchQueries (processedQuery : jsstring) (searchVariations : list jsstring)
    : list jsstring :=
  [processedQuery]
  ++ slice searchVariations 1 4
  ++ (if includes processedQuery [space] then split space processedQuery else [])
  ++ [substring processedQuery 0 3].

(** The elements of the array literal are evaluated from left to right,
    [k] of them being done: each text is encoded, then its request is
    issued.  A text that cannot be encoded throws; the requests issued
    before it stay issued, and nothing is awaited. *)
Fixpoint searchPromises (w : World) (k : nat) (texts : list jsstring) : M (list Settled) :=
  match texts with
  | [] => ret []
  | text :: texts' =>
      encoded <~ lift (encodeURIComponent text) ;;
      promise <~ (fun s => (Ok (fetch w k (SearchMovie encoded)),
                            dispatch [SearchMovie encoded] s)) ;;
      promises <~ searchPromises w (S k) texts' ;;
      ret (promise :: promises)
  end.

(** Lines 195-203. *)
Definition rankResults (query : jsstring) (unique : list Movie) : Result (list Movie) :=
  scoredResults <-
    mapM (fun movie =>
            score <- calculateRelevanceScore movie query ;;
            Ok (withScore movie score))
         unique ;;
  Ok (slice (sort (fun a b => sub (scoreOf b) (scoreOf a)) scoredResults) 0 20).

(** Line 208, as in the first part. *)
Definition awaitCount (w : World) (query : jsstring) (top : Movie) : M unit :=
  fun s => match updateSearchCount w query top with
           | CountResolved => (Ok tt, record query top s)
           | CountRejected => (Throw CounterError, record query top s)
           end.

(** Lines 132-203: from the query to [sortedResults]. *)
Definition searchResults (w : World) (query : jsstring) : M (list Movie) :=
  let processedQuery := preprocessSearchTerm query in
  searchVariations <~ lift (generateSearchVariations processedQuery) ;;
  match processedQuery with
  | VObject => lift (Throw TypeError)
  | VString processedQuery =>
      promises <~ searchPromises w 0 (searchQueries processedQuery searchVariations) ;;
      responses <~ lift (awaitAll promises) ;;
      allResults <~ lift (collectResults responses) ;;
      lift (rankResults query (uniqueResults allResults))
  end.

(** Lines 132-209: the branch of a non-empty query. *)
Definition searchBranch (w : World) (query : jsstring) : M unit :=
  sortedResults <~ searchResults w query ;;
  effect (setMovieList sortedResults) ;;;
  match sortedResults with
  | top :: _ => awaitCount w query top
  | [] => ret tt
  end.

(** Lines 211-220: the branch of the empty query. *)
Definition discoverBranch (w : World) : M unit :=
  promise <~ (fun s => (Ok (fetch w 0 DiscoverMovie), dispatch [DiscoverMovie] s)) ;;
  responses <~ lift (awaitAll [promise]) ;;
  match responses with
  | (ok, body) :: _ =>
      if negb ok then lift (Throw (Error "Failed to fetch movies"))
      else
        data <~ lift (json body) ;;
        effect (setMovieList (match data with Some results => results | None => [] end))
  | [] => ret tt
  end.

Definition fetchMovies (w : World) (query : jsstring) (s : State) : State :=
  let s := setIsLoading true s in
  let s := setErrorMessage "" s in
  tryCatchFinally
    (match query with
     | [] => discoverBranch w
     | _ => searchBranch w query
     end)
    (fun error s => setErrorMessage errorText (consoleError error s))
    (setIsLoading false)
    s.

(** ** Specification-level definitions *)

(** The variations of a string: what [generateSearchVariations] returns
    on it. *)
Definition variationsOf (term : jsstring) : list jsstring :=
  match generateSearchVariations (VString term) with
  | Ok variations => variations
  | Throw _ => []
  end.

(** The texts of the batch of a processed query. *)
Definition batchOf (processedQuery : jsstring) : list jsstring :=
  searchQueries processedQuery (variationsOf processedQuery).

End Engine.

(** A text that [encodeURIComponent] accepts. *)
Definition encodable (text : jsstring) : Prop := wellFormed text = true.

(** How the requests for [texts] settle, the first of them being the
    [k]-th request of the call. *)
Definition settle (w : World) (k : nat) (texts : list jsstring) : list Settled :=
  map (fun kt => fetch w (fst kt) (SearchMovie (snd kt)))
      (combine (seq k (List.length texts)) texts).

(** The state in which [fetchMovies] enters its [try] block, and the
    state after the block threw [e] in state [s]. *)
Definition entered (s : State) : State := setErrorMessage "" (setIsLoading true s).

Definition failed (e : Exn) (s : State) : State :=
  setIsLoading false (setErrorMessage errorText (consoleError e s)).

(** The texts before the first one that cannot be encoded. *)
Fixpoint encodablePrefix (texts : list jsstring) : list jsstring :=
  match texts with
  | [] => []
  | text :: texts' => if wellFormed text then text :: encodablePrefix texts' else []
  end.

(** A string without surrogate code units: one whose characters all lie
    in the Basic Multilingual Plane. *)
Definition noSurrogate (s : jsstring) : bool :=
  forallb (fun c => negb (isHighSurrogate c) && negb (isLowSurrogate c)) s.

(** ** Sample engines, worlds and states *)

(** The case mapping on strings of ASCII characters and of characters
    without case: A-Z move up by 32. *)
Definition lowerASCII (s : jsstring) : jsstring :=
  map (fun c => if ((65 <=? c) && (c <=? 90))%N then (c + 32)%N else c) s.

(** The string of the first part with the same code units, for a string
    of code units below 256. *)
Definition narrow (s : jsstring) : string :=
  string_of_list_ascii (map ascii_of_N s).

(** The scorer of the first part, on the queries it covers. *)
Definition scoreNarrow (movie : Movie) (query : jsstring) : Result jsnum :=
  calculateRelevanceScore movie (narrow query).

(** Every request is answered with a non-success status. *)
Definition serviceErrorWorld : World :=
  mkWorld (fun _ _ => Fulfilled false Unparsable) (fun _ _ => CountResolved).

(** Every request succeeds with the same page. *)
Definition catalogWorld : World :=
  mkWorld (fun _ _ => Fulfilled true (Parsed (Some samplePage))) (fun _ _ => CountResolved).

(** The second request of the batch is rejected, every other request
    succeeds. *)
Definition flakyWorld : World :=
  mkWorld (fun k _ => if k =? 1 then Rejected
                      else Fulfilled true (Parsed (Some samplePage)))
          (fun _ _ => CountResolved).

(** The component showing the results of an earlier search. *)
Definition showing (l : list Movie) : State := mkState l "" false [] [] [].

(** The query [ab] followed by U+1F600, a character of two code units. *)
Definition grinning : jsstring := js "ab" ++ [55357%N; 56832%N].

End Wide.

(* ================================================================== *)
(** * Properties                                                        *)
(* ================================================================== *)

(** ** The edit distance *)

Lemma levCell_0 str1 str2 j : levCell str1 str2 0 j = j.
Proof. reflexivity. Qed.

Lemma levCell_S_0 str1 str2 i : levCell str1 str2 (S i) 0 = S i.
Proof. reflexivity. Qed.

Lemma levCell_S_S str1 str2 i j :
  levCell str1 str2 (S i) (S j) =
  if (charAt str2 i =? charAt str1 j)%string
  then levCell str1 str2 i j
  else Nat.min (levCell str1 str2 i j + 1)
         (Nat.min (levCell str1 str2 (S i) j + 1) (levCell str1 str2 i (S j) + 1)).
Proof. reflexivity. Qed.

Lemma levCell_sym str1 str2 i j : levCell str1 str2 i j = levCell str2 str1 j i.
Proof.
  revert j. induction i as [|i IHi]; intros j.
  - destruct j; reflexivity.
  - induction j as [|j IHj].
    + reflexivity.
    + rewrite !levCell_S_S, String.eqb_sym.
      rewrite (IHi j), (IHi (S j)), IHj.
      destruct (charAt str1 j =? charAt str2 i)%string; lia.
Qed.

Lemma levCell_diag s i : levCell s s i i = 0.
Proof.
  induction i as [|i IH]; [reflexivity|].
  rewrite levCell_S_S, String.eqb_refl. exact IH.
Qed.

Lemma levCell_le_max str1 str2 i j : levCell str1 str2 i j <= Nat.max i j.
Proof.
  revert j. induction i as [|i IHi]; intros j.
  - simpl. lia.
  - destruct j as [|j].
    + simpl. lia.
    + rewrite levCell_S_S. specialize (IHi j).
      destruct (charAt str2 i =? charAt str1 j)%string; lia.
Qed.

(** Array facts *)
Lemma nth_error_middle {A} (pre post : list A) x i :
  List.length pre = i -> nth_error (pre ++ x :: post) i = Some x.
Proof.
  intros <-. rewrite nth_error_app2 by lia. now rewrite Nat.sub_diag.
Qed.

Lemma arraySet_cons {A} (a : A) l i y :
  arraySet (a :: l) (S i) y = option_map (cons a) (arraySet l i y).
Proof.
  unfold arraySet. cbn [List.length].
  change (S i <? S (List.length l)) with (i <? List.length l).
  change (S i =? S (List.length l)) with (i =? List.length l).
  destruct (i <? List.length l); [reflexivity|].
  destruct (i =? List.length l); reflexivity.
Qed.

Lemma arraySet_middle {A} (pre post : list A) x y i :
  List.length pre = i -> arraySet (pre ++ x :: post) i y = Some (pre ++ y :: post).
Proof.
  intros <-. induction pre as [|a pre IH].
  - reflexivity.
  - cbn [app List.length]. rewrite arraySet_cons, IH. reflexivity.
Qed.

Lemma arraySet_head {A} (x y : A) l : arraySet (x :: l) 0 y = Some (y :: l).
Proof. reflexivity. Qed.

Lemma arraySet_end {A} (l : list A) y i :
  List.length l = i -> arraySet l i y = Some (l ++ [y]).
Proof.
  intros <-. unfold arraySet. rewrite Nat.ltb_irrefl, Nat.eqb_refl. reflexivity.
Qed.

Lemma rows_init a k :
  forM (seq a k) (fun i matrix => setRow matrix i [i]) (map (fun i => [i]) (seq 0 a))
  = Ok (map (fun i => [i]) (seq 0 (a + k))).
Proof.
  revert a. induction k as [|k IH]; intros a.
  - simpl. now rewrite Nat.add_0_r.
  - simpl. unfold setRow at 1.
    rewrite arraySet_end by (now rewrite length_map, length_seq).
    simpl. replace (map (fun i => [i]) (seq 0 a) ++ [[a]]) with (map (fun i => [i]) (seq 0 (S a))).
    + rewrite IH. f_equal. f_equal. f_equal. lia.
    + rewrite seq_S, map_app. reflexivity.
Qed.

Lemma row0_fill rest a k :
  forM (seq (S a) k) (fun j matrix => setCell matrix 0 j j) (seq 0 (S a) :: rest)
  = Ok (seq 0 (S a + k) :: rest).
Proof.
  revert a. induction k as [|k IH]; intros a.
  - simpl. now rewrite Nat.add_0_r.
  - change (seq (S a) (S k)) with (S a :: seq (S (S a)) k). cbn [forM].
    unfold setCell at 1. cbn [nth_error].
    rewrite arraySet_end by (now rewrite length_seq).
    unfold setRow. rewrite arraySet_head. cbn [bind].
    rewrite <- seq_S. rewrite IH. do 3 f_equal. lia.
Qed.

Section Rows.
Variables str1 str2 : string.

Local Abbreviation m := (String.length str1).

Lemma nth_error_levRow i n j : j < n -> nth_error (levRow str1 str2 i n) j = Some (levCell str1 str2 i j).
Proof.
  intros H. unfold levRow. rewrite nth_error_map, nth_error_seq.
  destruct (Nat.ltb_spec j n); [reflexivity | lia].
Qed.

Lemma inner_loop pre post i k j :
  List.length pre = i -> j + k = m ->
  forM (seq (S j) k) (cellBody str1 str2 (S i))
    (pre ++ levRow str1 str2 i (S m) :: levRow str1 str2 (S i) (S j) :: post)
  = Ok (pre ++ levRow str1 str2 i (S m) :: levRow str1 str2 (S i) (S j + k) :: post).
Proof.
  intros Hpre. revert j. induction k as [|k IH]; intros j Hj.
  - simpl. now rewrite Nat.add_0_r.
  - change (seq (S j) (S k)) with (S j :: seq (S (S j)) k). cbn [forM].
    set (prev := levRow str1 str2 i (S m)).
    set (cur := levRow str1 str2 (S i) (S j)).
    assert (Hprev : forall c, nth_error (pre ++ prev :: c :: post) i = Some prev)
      by (intros; now apply nth_error_middle).
    assert (Hcur : forall c, nth_error (pre ++ prev :: c :: post) (S i) = Some c).
    { intros c. replace (pre ++ prev :: c :: post) with ((pre ++ [prev]) ++ c :: post)
        by (now rewrite <- app_assoc).
      apply nth_error_middle. rewrite length_app. simpl. lia. }
    assert (Hset : forall v, setCell (pre ++ prev :: cur :: post) (S i) (S j) v
                             = Ok (pre ++ prev :: (cur ++ [v]) :: post)).
    { intros v. unfold setCell. rewrite Hcur.
      rewrite arraySet_end by (unfold cur, levRow; now rewrite length_map, length_seq).
      unfold setRow.
      replace (pre ++ prev :: cur :: post) with ((pre ++ [prev]) ++ cur :: post)
        by (now rewrite <- app_assoc).
      rewrite arraySet_middle by (rewrite length_app; simpl; lia).
      now rewrite <- app_assoc. }
    assert (G1 : getCell (pre ++ prev :: cur :: post) i j = Ok (levCell str1 str2 i j)).
    { unfold getCell. rewrite Hprev. unfold prev. rewrite nth_error_levRow by lia. reflexivity. }
    assert (G2 : getCell (pre ++ prev :: cur :: post) (S i) j = Ok (levCell str1 str2 (S i) j)).
    { unfold getCell. rewrite Hcur. unfold cur. rewrite nth_error_levRow by lia. reflexivity. }
    assert (G3 : getCell (pre ++ prev :: cur :: post) i (S j) = Ok (levCell str1 str2 i (S j))).
    { unfold getCell. rewrite Hprev. unfold prev. rewrite nth_error_levRow by lia. reflexivity. }
    assert (Hstep : cellBody str1 str2 (S i) (S j) (pre ++ prev :: cur :: post)
                    = Ok (pre ++ prev :: levRow str1 str2 (S i) (S (S j)) :: post)).
    { unfold cellBody. replace (S i - 1) with i by lia. replace (S j - 1) with j by lia.
      change (levRow str1 str2 (S i) (S (S j)))
        with (map (levCell str1 str2 (S i)) (seq 0 (S (S j)))).
      rewrite (seq_S (S j)), map_app.
      change (map (levCell str1 str2 (S i)) (seq 0 (S j))) with cur.
      cbn [map Nat.add]. rewrite levCell_S_S.
      destruct (charAt str2 i =? charAt str1 j)%string.
      - rewrite G1. cbn [bind]. apply Hset.
      - rewrite G1, G2, G3. cbn [bind]. apply Hset. }
    rewrite Hstep. cbn [bind]. rewrite IH by lia.
    replace (S (S j) + k) with (S j + S k) by lia. reflexivity.
Qed.
End Rows.

Ltac step_with H :=
  match goal with
  | |- bind ?x ?k = _ =>
      match type of H with
      | _ = ?r => transitivity (bind r k); [f_equal; exact H | cbn [bind]]
      end
  end.

Section Table.
Variables str1 str2 : string.
Local Abbreviation m := (String.length str1).
Local Abbreviation n := (String.length str2).

Lemma outer_loop i k :
  i + k = n ->
  forM (seq (S i) k)
    (fun i matrix => forM (seq 1 m) (cellBody str1 str2 i) matrix)
    (rowsDone str1 str2 (S i) ++ map (fun k => [k]) (seq (S i) k))
  = Ok (rowsDone str1 str2 (S i + k)).
Proof.
  revert i. induction k as [|k IH]; intros i Hi.
  - simpl. now rewrite app_nil_r, Nat.add_0_r.
  - change (seq (S i) (S k)) with (S i :: seq (S (S i)) k). cbn [forM map].
    unfold rowsDone at 1. rewrite seq_S, map_app. cbn [map Nat.add].
    rewrite <- app_assoc. cbn [app].
    change [S i] with (levRow str1 str2 (S i) 1).
    rewrite (inner_loop str1 str2 _ _ i m 0) by (try reflexivity; now rewrite length_map, length_seq).
    cbn [bind].
    assert (E : rowsDone str1 str2 (S (S i))
                = map (fun k => levRow str1 str2 k (S m)) (seq 0 i)
                  ++ [levRow str1 str2 i (S m); levRow str1 str2 (S i) (S m)]).
    { unfold rowsDone. rewrite (seq_S (S i)), (seq_S i), !map_app, <- app_assoc.
      reflexivity. }
    specialize (IH (S i)). rewrite E, <- app_assoc in IH. cbn [app] in IH.
    etransitivity; [apply IH; lia|].
    replace (S (S i) + k) with (S i + S k) by lia. reflexivity.
Qed.

Lemma levRow_0 k : levRow str1 str2 0 k = seq 0 k.
Proof. unfold levRow. apply map_id. Qed.

Lemma row0_init :
  forM (seq 0 (S m)) (fun j matrix => setCell matrix 0 j j)
    (map (fun i => [i]) (seq 0 (S n)))
  = Ok (seq 0 (S m) :: map (fun i => [i]) (seq 1 n)).
Proof.
  change (seq 0 (S m)) with (0 :: seq 1 m) at 1.
  change (seq 0 (S n)) with (0 :: seq 1 n).
  cbn [map forM]. unfold setCell at 1. cbn [nth_error]. unfold setRow at 1.
  rewrite !arraySet_head. cbn [bind].
  exact (row0_fill _ 0 m).
Qed.

Lemma rows_fill :
  forM (seq 1 n)
    (fun i matrix => forM (seq 1 m) (cellBody str1 str2 i) matrix)
    (seq 0 (S m) :: map (fun i => [i]) (seq 1 n))
  = Ok (rowsDone str1 str2 (S n)).
Proof.
  rewrite <- (levRow_0 (S m)). exact (outer_loop 0 n eq_refl).
Qed.

Lemma getCell_rowsDone i j k :
  i < k -> j <= m -> getCell (rowsDone str1 str2 k) i j = Ok (levCell str1 str2 i j).
Proof.
  intros Hi Hj. unfold getCell, rowsDone.
  rewrite nth_error_map, nth_error_seq.
  destruct (Nat.ltb_spec i k); [|lia]. cbn [option_map Nat.add].
  rewrite nth_error_levRow by lia. reflexivity.
Qed.

Lemma levenshteinDistance_table :
  levenshteinDistance str1 str2 = Ok (levCell str1 str2 n m).
Proof.
  unfold levenshteinDistance.
  step_with (rows_init 0 (S n)).
  step_with row0_init.
  step_with rows_fill.
  apply getCell_rowsDone; lia.
Qed.
End Table.

(** C10.  The edit distance of a string to itself is 0, and the edit
    distance is symmetric: [levenshteinDistance] returns, on [a], [b] and
    on [b], [a], the same number. *)
Theorem levenshteinDistance_self_zero_and_symmetric :
  (forall s, levenshteinDistance s s = Ok 0) /\
  (forall a b, exists d,
      levenshteinDistance a b = Ok d /\ levenshteinDistance b a = Ok d).
Proof.
  split.
  - intros s. rewrite levenshteinDistance_table. f_equal. apply levCell_diag.
  - intros a b. exists (levCell a b (String.length b) (String.length a)).
    rewrite !levenshteinDistance_table. split; [reflexivity|].
    f_equal. apply levCell_sym.
Qed.

(** ** Numbers and the similarity ratio *)

Lemma gt_Num x y : gt (Num x) (Num y) = true <-> (y < x)%Q.
Proof.
  unfold gt. rewrite negb_true_iff. split.
  - intros H. apply Qnot_le_lt. intros L. apply Qle_bool_iff in L. congruence.
  - intros H. destruct (Qle_bool x y) eqn:E; [|reflexivity].
    apply Qle_bool_iff in E. lra.
Qed.

Lemma inject_nat_nonneg n : (0 <= inject_Z (Z.of_nat n))%Q.
Proof. change 0%Q with (inject_Z 0). rewrite <- Zle_Qle. lia. Qed.

Lemma inject_nat_pos n : 0 < n -> (0 < inject_Z (Z.of_nat n))%Q.
Proof. intros H. change 0%Q with (inject_Z 0). rewrite <- Zlt_Qlt. lia. Qed.

Lemma inject_nat_le a b : a <= b -> (inject_Z (Z.of_nat a) <= inject_Z (Z.of_nat b))%Q.
Proof. intros H. rewrite <- Zle_Qle. lia. Qed.

(** Division of a count by a positive count. *)
Lemma div_ofNat a b :
  0 < b -> div (Num a) (ofNat b) = Num (a / inject_Z (Z.of_nat b)).
Proof.
  intros H. unfold div, ofNat.
  pose proof (inject_nat_pos b H) as P.
  destruct (Qcompare_spec (inject_Z (Z.of_nat b)) 0) as [E|E|E]; try reflexivity.
  rewrite E in P. exfalso. lra.
Qed.

(** The value of the ratio. *)
Lemma similarity_ratio a b :
  exists distance,
    levenshteinDistance a b = Ok distance /\
    distance <= Nat.max (String.length a) (String.length b) /\
    similarity a b =
      Ok (if Nat.max (String.length a) (String.length b) =? 0 then NaN
          else Num ((inject_Z (Z.of_nat (Nat.max (String.length a) (String.length b)))
                     - inject_Z (Z.of_nat distance))
                    / inject_Z (Z.of_nat (Nat.max (String.length a) (String.length b))))).
Proof.
  exists (levCell a b (String.length b) (String.length a)).
  pose proof (levCell_le_max a b (String.length b) (String.length a)) as B.
  rewrite Nat.max_comm in B.
  split; [apply levenshteinDistance_table|]. split; [exact B|].
  unfold similarity. rewrite levenshteinDistance_table. cbn [bind]. f_equal.
  destruct (Nat.max (String.length a) (String.length b)) as [|k] eqn:E.
  - assert (levCell a b (String.length b) (String.length a) = 0) as -> by lia.
    reflexivity.
  - cbn [Nat.eqb]. unfold sub, neg. cbn [add ofNat].
    rewrite <- E. change (Num (inject_Z (Z.of_nat (Nat.max (String.length a) (String.length b))))) with (ofNat (Nat.max (String.length a) (String.length b))).
    rewrite div_ofNat by lia. reflexivity.
Qed.

Lemma Qdiv_nonneg a b : (0 <= a)%Q -> (0 < b)%Q -> (0 <= a / b)%Q.
Proof. intros Ha Hb. apply Qle_shift_div_l; [exact Hb|]. lra. Qed.

Lemma Qdiv_le_1 a b : (a <= b)%Q -> (0 < b)%Q -> (a / b <= 1)%Q.
Proof. intros Ha Hb. apply Qle_shift_div_r; [exact Hb|]. lra. Qed.

(** The ratio is NaN on two empty strings and a number of [0, 1]
    otherwise. *)
Lemma similarity_cases a b :
  (a = "" /\ b = "" /\ similarity a b = Ok NaN) \/
  (exists q, similarity a b = Ok (Num q) /\ (0 <= q <= 1)%Q).
Proof.
  destruct (similarity_ratio a b) as (d & _ & Hd & Hs).
  destruct (Nat.max (String.length a) (String.length b)) as [|k] eqn:E.
  - left. destruct a, b; cbn in E; try lia. auto.
  - right. cbn [Nat.eqb] in Hs. eexists. split; [exact Hs|].
    pose proof (inject_nat_le _ _ Hd) as L.
    pose proof (inject_nat_nonneg d) as N.
    pose proof (inject_nat_pos (S k) ltac:(lia)) as P.
    split.
    + apply Qdiv_nonneg; [lra | exact P].
    + apply Qdiv_le_1; [lra | exact P].
Qed.

Lemma similarity_nonempty a b :
  0 < Nat.max (String.length a) (String.length b) ->
  exists q, similarity a b = Ok (Num q) /\ (0 <= q <= 1)%Q.
Proof.
  intros H. destruct (similarity_cases a b) as [(-> & -> & _)|R]; [cbn in H; lia | exact R].
Qed.

(** ** Loops that cannot throw *)
Lemma forM_invariant {A S : Type} (P : S -> Prop) (body : A -> S -> Result S) l :
  (forall x s, P s -> exists s', body x s = Ok s' /\ P s') ->
  forall s, P s -> exists s', forM l body s = Ok s' /\ P s'.
Proof.
  intros Hbody. induction l as [|x l IH]; intros s Hs.
  - exists s. split; [reflexivity | exact Hs].
  - cbn [forM]. destruct (Hbody x s Hs) as (s1 & -> & H1). cbn [bind]. apply IH, H1.
Qed.

(** ** The word loop of lines 254-266 *)
Lemma wordBody_nonneg titleWord queryWord best :
  nonneg best -> exists best', wordBody titleWord queryWord best = Ok best' /\ nonneg best'.
Proof.
  intros (qb & -> & Hb). unfold wordBody.
  destruct (similarity_cases titleWord queryWord) as [(_ & _ & ->)|(q & -> & Hq)]; cbn [bind].
  - exists (Num qb). split; [reflexivity|]. exists qb. auto.
  - destruct (gt (Num q) (Num (6 # 10))) eqn:G.
    + eexists. split; [reflexivity|]. cbn [mul max].
      destruct (gt (Num qb) (Num (q * 60))); eexists; split; try reflexivity; lra.
    + exists (Num qb). split; [reflexivity|]. exists qb. auto.
Qed.

Lemma wordLoop_nonneg titleWords queryWords :
  exists best,
    forM titleWords
      (fun titleWord bestWordMatch => forM queryWords (wordBody titleWord) bestWordMatch)
      (Num 0) = Ok best /\ nonneg best.
Proof.
  apply (forM_invariant nonneg).
  - intros titleWord s Hs. apply (forM_invariant nonneg); [|exact Hs].
    intros queryWord s0 Hs0. now apply wordBody_nonneg.
  - exists 0%Q. split; [reflexivity | lra].
Qed.

(** ** The fuzzy score *)
Lemma calculateFuzzyScore_nonneg text query :
  query <> "" -> nonneg (calculateFuzzyScore text query).
Proof.
  intros H. unfold calculateFuzzyScore.
  destruct (fold_left _ _ _) as (matchCount, lastIndex).
  assert (0 < String.length query) by (destruct query; [congruence | cbn; lia]).
  unfold ofNat at 1. rewrite div_ofNat by assumption.
  eexists. split; [reflexivity|].
  apply Qdiv_nonneg; [apply inject_nat_nonneg | now apply inject_nat_pos].
Qed.

Lemma toLowerCase_length s : String.length (toLowerCase s) = String.length s.
Proof. induction s; cbn; congruence. Qed.

Lemma toLowerCase_nonempty s : s <> "" -> toLowerCase s <> "".
Proof. destruct s; [congruence | discriminate]. Qed.

Lemma bonus_step (c : bool) q n :
  (0 <= n)%Q ->
  exists q', (if c then add (Num q) (Num n) else Num q) = Num q' /\ (q <= q')%Q
             /\ (c = true -> (q + n <= q')%Q).
Proof.
  intros Hn. destruct c; eexists; (split; [reflexivity|]); split; try lra; try discriminate.
Qed.

Lemma score_shape movie t query :
  title movie = Some t -> query <> "" ->
  exists text,
    (0 <= text)%Q /\
    (toLowerCase t = toLowerCase query -> (100 <= text)%Q) /\
    calculateRelevanceScore movie query =
      Ok (add (add (Num text) (mul (orZero (vote_average movie)) (Num 1)))
              (min (div (orZero (vote_count movie)) (Num 1000)) (Num 5))).
Proof.
  intros Ht Hq. unfold calculateRelevanceScore. rewrite Ht. cbv zeta.
  set (queryLower := toLowerCase query). set (titleLower := toLowerCase t).
  assert (HqL : queryLower <> "") by now apply toLowerCase_nonempty.
  change (add (Num 0) (Num 100)) with (add (Num 0%Q) (Num 100%Q)).
  destruct (bonus_step (titleLower =? queryLower)%string 0 100 ltac:(lra)) as (q1 & -> & L1 & E1).
  destruct (bonus_step (includes titleLower queryLower) q1 80 ltac:(lra)) as (q2 & -> & L2 & _).
  destruct (bonus_step (startsWith titleLower queryLower) q2 70 ltac:(lra)) as (q3 & -> & L3 & _).
  destruct (bonus_step (includes (toLowerCase (orEmpty (overview movie))) queryLower) q3 30 ltac:(lra))
    as (q4 & -> & L4 & _).
  destruct (wordLoop_nonneg (split " " titleLower) (split " " queryLower)) as (best & -> & qb & -> & Hb).
  cbn [bind].
  destruct (similarity_nonempty titleLower queryLower) as (qs & -> & Hs).
  { destruct queryLower; [congruence|]. cbn [String.length]. lia. }
  cbn [bind].
  destruct (calculateFuzzyScore_nonneg titleLower queryLower HqL) as (qf & -> & Hf).
  assert (E100 : titleLower = queryLower -> (100 <= q4)%Q).
  { intros E. apply String.eqb_eq in E. specialize (E1 E). lra. }
  destruct (gt (Num qs) (Num (1 # 2))).
  - exists (q4 + qb + qs * 40 + qf * 20)%Q.
    split; [lra|]. split; [|reflexivity]. intros E. specialize (E100 E). lra.
  - exists (q4 + qb + qf * 20)%Q.
    split; [lra|]. split; [|reflexivity]. intros E. specialize (E100 E). lra.
Qed.

(** The scorer returns on every item that has a title. *)
Lemma calculateRelevanceScore_returns movie t query :
  title movie = Some t -> exists v, calculateRelevanceScore movie query = Ok v.
Proof.
  intros Ht. unfold calculateRelevanceScore. rewrite Ht. cbv zeta.
  destruct (wordLoop_nonneg (split " " (toLowerCase t)) (split " " (toLowerCase query)))
    as (best & -> & _).
  cbn [bind].
  destruct (similarity_cases (toLowerCase t) (toLowerCase query))
    as [(_ & _ & ->)|(q & -> & _)]; cbn [bind]; eexists; reflexivity.
Qed.

(** On a non-empty query the score of an item with a title is a number. *)
Lemma calculateRelevanceScore_finite movie t query :
  title movie = Some t -> query <> "" ->
  exists q, calculateRelevanceScore movie query = Ok (Num q).
Proof.
  intros Ht Hq. destruct (score_shape movie t query Ht Hq) as (text & _ & _ & ->).
  destruct (vote_average movie), (vote_count movie); cbn [orZero mul add div];
    change ((1000 ?= 0)%Q) with Gt; cbn [min];
    match goal with |- context [gt ?a ?b] => destruct (gt a b) end;
    eexists; reflexivity.
Qed.

(** ** The ratio on the empty pair *)

(** C7 (as the code has it).  The ratio is not guarded: on two empty
    strings it is 0/0, NaN, which fails the threshold test of the word
    loop, so that the pair leaves [bestWordMatch] as it was; on every
    other pair it is a number between 0 and 1. *)
Theorem similarity_unguarded (a b : string) :
  if Nat.max (String.length a) (String.length b) =? 0
  then similarity a b = Ok NaN /\ (forall best, wordBody a b best = Ok best)
  else exists q, similarity a b = Ok (Num q) /\ (0 <= q <= 1)%Q.
Proof.
  destruct (Nat.max (String.length a) (String.length b)) as [|k] eqn:E; cbn [Nat.eqb].
  - assert (a = "" /\ b = "") as (-> & ->) by (destruct a, b; cbn in E; try lia; auto).
    split; [reflexivity|]. intros best. reflexivity.
  - apply similarity_nonempty. lia.
Qed.

(** The ratio of the empty pair is NaN, not 1. *)
Lemma similarity_empty_pair_not_one :
  similarity "" "" = Ok NaN /\
  ~ (exists q, similarity "" "" = Ok (Num q) /\ (q == 1)%Q).
Proof.
  split; [reflexivity|]. intros (q & H & _). discriminate H.
Qed.

(** ** The floor of an exact title match *)

(** C5.  For a catalog item (its rating and vote count, when present,
    not negative) and a query that equals the item's title up to case,
    the score is a number and at least 100.  The query is one that the
    pipeline scores: [fetchMovies] calls the scorer on a non-empty query
    only (line 130). *)
Theorem exact_title_match_floor (movie : Movie) (t query : string) :
  title movie = Some t ->
  query <> "" ->
  toLowerCase t = toLowerCase query ->
  popularityNonNegative movie ->
  exists q, calculateRelevanceScore movie query = Ok (Num q) /\ (100 <= q)%Q.
Proof.
  intros Ht Hq E [Ha Hc].
  destruct (score_shape movie t query Ht Hq) as (text & _ & H100 & ->).
  specialize (H100 E).
  assert (A : exists a, mul (orZero (vote_average movie)) (Num 1) = Num a /\ (0 <= a)%Q).
  { destruct (vote_average movie) as [v|]; cbn [orZero mul]; eexists; split;
      try reflexivity; lra. }
  assert (C : exists c, min (div (orZero (vote_count movie)) (Num 1000)) (Num 5) = Num c
                        /\ (0 <= c)%Q).
  { assert (D : exists d, div (orZero (vote_count movie)) (Num 1000) = Num d /\ (0 <= d)%Q).
    { destruct (vote_count movie) as [c|]; cbn [orZero div];
        change ((1000 ?= 0)%Q) with Gt; eexists; split; try reflexivity;
        apply Qdiv_nonneg; lra. }
    destruct D as (d & -> & Hd). cbn [min].
    destruct (gt (Num d) (Num 5)); eexists; split; try reflexivity; lra. }
  destruct A as (a & -> & Ha'), C as (c & -> & Hc').
  eexists. split; [reflexivity|]. lra.
Qed.

Lemma exact_title_match_floor_witness :
  exists q,
    calculateRelevanceScore
      (mkMovie 1 (Some "Iron Man") None (Some (7 # 1)%Q) (Some (2000 # 1)%Q) None)
      "iron man" = Ok (Num q) /\ (100 <= q)%Q.
Proof.
  apply (exact_title_match_floor _ "Iron Man").
  - reflexivity.
  - discriminate.
  - reflexivity.
  - split; cbn; lra.
Defined.

(** The scorer is not called on the empty query.  Were it, the score
    of an empty title would be NaN: the fuzzy score divides 0 by 0. *)
Lemma exact_title_match_empty_query_NaN :
  toLowerCase "" = toLowerCase "" /\
  calculateRelevanceScore (mkMovie 1 (Some "") None None None None) "" = Ok NaN /\
  ~ (exists q,
        calculateRelevanceScore (mkMovie 1 (Some "") None None None None) "" = Ok (Num q)
        /\ (100 <= q)%Q).
Proof.
  split; [reflexivity|]. split; [reflexivity|].
  intros (q & H & _). discriminate H.
Qed.

(** ** Absent fields *)

(** C8 (as the code has it).  On an item that has a title the scorer
    returns, whatever the query; an absent overview counts as the empty
    string and an absent rating or vote count as 0. *)
Theorem calculateRelevanceScore_total_with_title
    (i : Z) (t : string) (o : option string) (va vc : option Q)
    (rs : option jsnum) (query : string) :
  (exists v, calculateRelevanceScore (mkMovie i (Some t) o va vc rs) query = Ok v) /\
  calculateRelevanceScore (mkMovie i (Some t) None va vc rs) query
  = calculateRelevanceScore (mkMovie i (Some t) (Some "") va vc rs) query /\
  calculateRelevanceScore (mkMovie i (Some t) o None vc rs) query
  = calculateRelevanceScore (mkMovie i (Some t) o (Some 0%Q) vc rs) query /\
  calculateRelevanceScore (mkMovie i (Some t) o va None rs) query
  = calculateRelevanceScore (mkMovie i (Some t) o va (Some 0%Q) rs) query.
Proof.
  split; [now apply (calculateRelevanceScore_returns _ t)|].
  repeat split; reflexivity.
Qed.

(** An item without a title makes the scorer throw. *)
Lemma calculateRelevanceScore_absent_title_throws :
  calculateRelevanceScore (mkMovie 1 None None None None None) "iron" = Throw TypeError.
Proof. reflexivity. Qed.

(** ** Deduplication *)

Lemma findIndex_app_hit {A} (p : A -> bool) pre l :
  existsb p pre = true ->
  (0 <= findIndex p (pre ++ l) < Z.of_nat (List.length pre))%Z.
Proof.
  induction pre as [|x pre IH]; cbn [existsb app findIndex List.length]; [discriminate|].
  destruct (p x); cbn [orb]; [lia|]. intros H. specialize (IH H).
  destruct (Z.ltb_spec (findIndex p (pre ++ l)) 0); lia.
Qed.

Lemma findIndex_app_miss {A} (p : A -> bool) pre x l :
  existsb p pre = false -> p x = true ->
  findIndex p (pre ++ x :: l) = Z.of_nat (List.length pre).
Proof.
  intros H Hx. induction pre as [|y pre IH]; cbn [existsb app findIndex List.length] in *.
  - now rewrite Hx.
  - apply orb_false_iff in H as [-> H]. rewrite (IH H).
    destruct (Z.ltb_spec (Z.of_nat (List.length pre)) 0); lia.
Qed.

Lemma filterFrom_dedup (pre l : list Movie) (seen : list Z) :
  (forall i, existsb (Z.eqb i) seen = existsb (hasId i) pre) ->
  filterFrom
    (fun movie index =>
       (index =? findIndex (fun m => (id m =? id movie)%Z) (pre ++ l))%Z)
    (Z.of_nat (List.length pre)) l
  = dedupById seen l.
Proof.
  revert pre seen. induction l as [|x l IH]; intros pre seen Hseen; [reflexivity|].
  cbn [filterFrom dedupById].
  assert (Hnext : filterFrom
            (fun movie index =>
               (index =? findIndex (fun m => (id m =? id movie)%Z) (pre ++ x :: l))%Z)
            (Z.of_nat (List.length pre) + 1) l
          = filterFrom
            (fun movie index =>
               (index =? findIndex (fun m => (id m =? id movie)%Z) ((pre ++ [x]) ++ l))%Z)
            (Z.of_nat (List.length (pre ++ [x]))) l).
  { rewrite <- app_assoc, length_app. cbn [app List.length].
    f_equal. lia. }
  rewrite Hnext, Hseen.
  change (fun m : Movie => (id m =? id x)%Z) with (hasId (id x)).
  destruct (existsb (hasId (id x)) pre) eqn:E.
  - pose proof (findIndex_app_hit (hasId (id x)) pre (x :: l) E) as R.
    destruct (Z.eqb_spec (Z.of_nat (List.length pre)) (findIndex (hasId (id x)) (pre ++ x :: l))); [lia|].
    apply IH. intros i. rewrite Hseen, existsb_app. cbn [existsb].
    destruct (Z.eqb_spec (id x) i) as [<-|N].
    + rewrite E. reflexivity.
    + unfold hasId. destruct (Z.eqb_spec (id x) i); [contradiction|].
      now rewrite !orb_false_r.
  - rewrite (findIndex_app_miss (hasId (id x)) pre x l E) by apply Z.eqb_refl.
    rewrite Z.eqb_refl. f_equal.
    apply IH. intros i. cbn [existsb]. rewrite Hseen, existsb_app. cbn [existsb].
    unfold hasId. rewrite orb_false_r, orb_comm. f_equal. apply Z.eqb_sym.
Qed.

Lemma uniqueResults_dedup allResults : uniqueResults allResults = dedupById [] allResults.
Proof.
  unfold uniqueResults, filterIndexed.
  exact (filterFrom_dedup [] allResults [] (fun _ => eq_refl)).
Qed.

Lemma dedupById_ids seen l i :
  In i (map id (dedupById seen l)) -> existsb (Z.eqb i) seen = false.
Proof.
  revert seen. induction l as [|x l IH]; intros seen; cbn [dedupById map In]; [tauto|].
  destruct (existsb (Z.eqb (id x)) seen) eqn:E.
  - apply IH.
  - cbn [map In]. intros [<-|H]; [exact E|].
    specialize (IH _ H). cbn [existsb] in IH. now apply orb_false_iff in IH.
Qed.

Lemma dedupById_NoDup seen l : NoDup (map id (dedupById seen l)).
Proof.
  revert seen. induction l as [|x l IH]; intros seen; cbn [dedupById map]; [constructor|].
  destruct (existsb (Z.eqb (id x)) seen); [apply IH|].
  cbn [map]. constructor; [|apply IH].
  intros H. apply dedupById_ids in H. cbn [existsb] in H.
  now rewrite Z.eqb_refl in H.
Qed.

Lemma dedupById_find seen l i :
  find (hasId i) (dedupById seen l)
  = if existsb (Z.eqb i) seen then None else find (hasId i) l.
Proof.
  revert seen. induction l as [|x l IH]; intros seen; cbn [dedupById find].
  - now destruct (existsb (Z.eqb i) seen).
  - destruct (existsb (Z.eqb (id x)) seen) eqn:E.
    + rewrite IH. destruct (existsb (Z.eqb i) seen) eqn:F; [reflexivity|].
      unfold hasId at 2. destruct (Z.eqb_spec (id x) i) as [<-|]; [congruence | reflexivity].
    + cbn [find]. unfold hasId at 1 3.
      destruct (Z.eqb_spec (id x) i) as [<-|N].
      * now rewrite E.
      * rewrite IH. cbn [existsb].
        destruct (Z.eqb_spec i (id x)); [congruence|]. reflexivity.
Qed.

(** C4.  The deduplicated list holds every identifier at most once; for
    every identifier, the item it keeps is the first item of the
    concatenation with that identifier; and it is the stable first-seen
    dedup of the concatenation. *)
Theorem uniqueResults_first_seen (allResults : list Movie) :
  NoDup (map id (uniqueResults allResults)) /\
  (forall i, find (hasId i) (uniqueResults allResults) = find (hasId i) allResults) /\
  uniqueResults allResults = dedupById [] allResults.
Proof.
  rewrite uniqueResults_dedup. split; [apply dedupById_NoDup|].
  split; [|reflexivity]. intros i. now rewrite dedupById_find.
Qed.

(** ** The variations *)

Lemma appendNew_app produced a b :
  appendNew produced (a ++ b) = appendNew (appendNew produced a) b.
Proof.
  revert produced. induction a as [|x a IH]; intros produced; cbn [app appendNew].
  - reflexivity.
  - destruct (existsb (String.eqb x) produced); apply IH.
Qed.

Lemma appendNew_extends produced cs :
  exists more, appendNew produced cs = produced ++ more.
Proof.
  revert produced. induction cs as [|c cs IH]; intros produced; cbn [appendNew].
  - exists []. now rewrite app_nil_r.
  - destruct (existsb (String.eqb c) produced).
    + apply IH.
    + destruct (IH (produced ++ [c])) as (more & ->).
      exists (c :: more). now rewrite <- app_assoc.
Qed.

Lemma appendNew_NoDup produced cs : NoDup produced -> NoDup (appendNew produced cs).
Proof.
  revert produced. induction cs as [|c cs IH]; intros produced H; cbn [appendNew].
  - exact H.
  - destruct (existsb (String.eqb c) produced) eqn:E; apply IH; [exact H|].
    apply NoDup_app; [exact H | repeat constructor; intros [] |].
    intros x Hx [Hc|[]]. subst x.
    assert (existsb (String.eqb c) produced = true); [|congruence].
    apply existsb_exists. exists c. split; [exact Hx | apply String.eqb_refl].
Qed.

Lemma pushVariation_appendNew lowerTerm i substitute variations :
  pushVariation lowerTerm i substitute variations
  = Ok (appendNew variations (filter (differsFrom lowerTerm) [replaceAt lowerTerm i substitute])).
Proof.
  unfold pushVariation. fold (replaceAt lowerTerm i substitute).
  cbn [filter]. unfold differsFrom.
  destruct (replaceAt lowerTerm i substitute =? lowerTerm)%string; cbn [negb andb appendNew];
    [reflexivity|].
  destruct (existsb _ variations); reflexivity.
Qed.

Lemma substitutes_appendNew lowerTerm i subs variations :
  forM subs (pushVariation lowerTerm i) variations
  = Ok (appendNew variations (filter (differsFrom lowerTerm) (map (replaceAt lowerTerm i) subs))).
Proof.
  revert variations. induction subs as [|x subs IH]; intros variations; [reflexivity|].
  cbn [forM map]. rewrite pushVariation_appendNew. cbn [bind]. rewrite IH.
  f_equal. rewrite <- appendNew_app, <- filter_app. reflexivity.
Qed.

(** A key of at most one unit is an own key of the table or no key. *)
Lemma substitutions_unit_key (c : ascii) :
  (getProperty substitutions (String c "") = Undefined /\ applicableTo (String c "") = [])
  \/ (getProperty substitutions (String c "") = Own (applicableTo (String c ""))).
Proof.
  destruct c as [[] [] [] [] [] [] [] []]; vm_compute; auto.
Qed.

Lemma substitutions_charAt lowerTerm i :
  (getProperty substitutions (charAt lowerTerm i) = Undefined
   /\ applicableTo (charAt lowerTerm i) = [])
  \/ (getProperty substitutions (charAt lowerTerm i) = Own (applicableTo (charAt lowerTerm i))).
Proof.
  unfold charAt. destruct (String.get i lowerTerm) as [c|].
  - apply substitutions_unit_key.
  - left. split; reflexivity.
Qed.

Lemma positions_appendNew lowerTerm positions variations :
  forM positions
    (fun i variations =>
       match getProperty substitutions (charAt lowerTerm i) with
       | Own subs => forM subs (pushVariation lowerTerm i) variations
       | Inherited _ => Throw TypeError
       | Undefined => Ok variations
       end) variations
  = Ok (appendNew variations
          (filter (differsFrom lowerTerm) (flat_map (candidatesAt lowerTerm) positions))).
Proof.
  revert variations. induction positions as [|i positions IH]; intros variations; [reflexivity|].
  cbn [forM flat_map]. rewrite filter_app, appendNew_app. unfold candidatesAt at 1.
  destruct (substitutions_charAt lowerTerm i) as [[-> ->]| ->].
  - cbn [bind map filter appendNew]. apply IH.
  - rewrite substitutes_appendNew. cbn [bind]. apply IH.
Qed.

Lemma generateSearchVariations_spec term :
  generateSearchVariations (VString term) = Ok (specVariations term).
Proof. apply positions_appendNew. Qed.

(** The table is consulted with the one character at the position, so
    its keys of several characters are never applicable. *)
Example generateSearchVariations_action :
  generateSearchVariations (VString "Action")
  = Ok ["Action"; "ection"; "iction"; "aktion"; "astion"; "acteon"; "actaon";
        "actiun"; "actian"].
Proof. reflexivity. Qed.

(** C9.  [generateSearchVariations] returns the term at position 0, then
    the candidates of the scan of the lower-cased term (for every
    position, every substitute of the table entry of the character
    there, with that one position replaced), in order of first
    appearance, without those equal to the lower-cased term and without
    duplicates. *)
Theorem generateSearchVariations_first_appearance (term : string) :
  generateSearchVariations (VString term) = Ok (specVariations term) /\
  nth_error (specVariations term) 0 = Some term /\
  NoDup (specVariations term).
Proof.
  split; [apply generateSearchVariations_spec|]. unfold specVariations. cbv zeta. split.
  - destruct (appendNew_extends [term]
                (filter (differsFrom (toLowerCase term)) (candidates (toLowerCase term))))
      as (more & ->).
    reflexivity.
  - apply appendNew_NoDup. repeat constructor. intros [].
Qed.

(** ** Ranking *)

Lemma byScoreDescending_after a b x y :
  scoreOf a = Num x -> scoreOf b = Num y ->
  gt (byScoreDescending a b) (Num 0) = true <-> (x < y)%Q.
Proof.
  intros Ha Hb. unfold byScoreDescending, sub. rewrite Ha, Hb. cbn [neg add].
  rewrite gt_Num. split; intros H; lra.
Qed.

Lemma insert_Forall {A} (P : A -> Prop) cmp x l :
  P x -> Forall P l -> Forall P (insert cmp x l).
Proof.
  intros Hx Hl. induction Hl as [|y l Hy Hl IH]; cbn [insert].
  - repeat constructor. exact Hx.
  - destruct (gt (cmp x y) (Num 0)); repeat constructor; assumption.
Qed.

Lemma insert_HdRel a x l :
  scoreGe a x -> HdRel scoreGe a l -> HdRel scoreGe a (insert byScoreDescending x l).
Proof.
  intros Hx Hl. destruct Hl as [|y l Hy]; cbn [insert].
  - constructor. exact Hx.
  - destruct (gt (byScoreDescending x y) (Num 0)); constructor; assumption.
Qed.

Lemma insert_Sorted x l :
  finiteScore x -> Forall finiteScore l -> Sorted scoreGe l ->
  Sorted scoreGe (insert byScoreDescending x l).
Proof.
  intros (qx & Hx) Hfin Hs. induction Hs as [|y l Hs IH Hd]; cbn [insert].
  - repeat constructor.
  - apply Forall_cons_iff in Hfin as [(qy & Hy) Hfin].
    destruct (gt (byScoreDescending x y) (Num 0)) eqn:G.
    + apply (byScoreDescending_after x y qx qy Hx Hy) in G.
      constructor; [now apply IH|].
      apply insert_HdRel; [|exact Hd]. exists qy, qx. repeat split; try assumption. lra.
    + constructor; [now constructor|]. constructor.
      exists qx, qy. repeat split; try assumption.
      destruct (Qlt_le_dec qx qy) as [L|L]; [|exact L].
      apply (byScoreDescending_after x y qx qy Hx Hy) in L. congruence.
Qed.

Lemma sort_Forall {A} (P : A -> Prop) cmp l : Forall P l -> Forall P (sort cmp l).
Proof.
  intros H. induction H as [|x l Hx Hl IH]; cbn [sort fold_right]; [constructor|].
  now apply insert_Forall.
Qed.

Lemma sort_Sorted l : Forall finiteScore l -> Sorted scoreGe (sort byScoreDescending l).
Proof.
  intros H. induction H as [|x l Hx Hl IH]; cbn [sort fold_right]; [constructor|].
  apply insert_Sorted; [exact Hx | now apply sort_Forall | exact IH].
Qed.

Lemma Sorted_firstn {A} (R : A -> A -> Prop) n l : Sorted R l -> Sorted R (firstn n l).
Proof.
  intros H. revert n. induction H as [|x l Hs IH Hd]; intros n.
  - rewrite firstn_nil. constructor.
  - destruct n as [|n]; cbn [firstn]; [constructor|].
    constructor; [apply IH|].
    destruct Hd as [|y l Hy]; [rewrite firstn_nil; constructor|].
    destruct n; cbn [firstn]; constructor. exact Hy.
Qed.

Lemma mapM_Forall {A B} (f : A -> Result B) (P : B -> Prop) l l' :
  (forall x y, f x = Ok y -> P y) -> mapM f l = Ok l' -> Forall P l'.
Proof.
  intros Hf. revert l'. induction l as [|x l IH]; intros l'; cbn [mapM].
  - intros [= <-]. constructor.
  - destruct (f x) as [y|e] eqn:E; cbn [bind]; [|discriminate].
    destruct (mapM f l) as [ys|e]; cbn [bind]; [|discriminate].
    intros [= <-]. constructor; [now apply (Hf x) | now apply IH].
Qed.

Lemma scored_finite query movie scored :
  query <> "" ->
  (score <- calculateRelevanceScore movie query ;; Ok (withScore movie score)) = Ok scored ->
  finiteScore scored.
Proof.
  intros Hq. destruct (title movie) as [t|] eqn:Ht.
  - destruct (calculateRelevanceScore_finite movie t query Ht Hq) as (q & ->).
    cbn [bind]. intros [= <-]. exists q. reflexivity.
  - unfold calculateRelevanceScore. rewrite Ht. discriminate.
Qed.

Lemma rankResults_sorted query unique l :
  query <> "" -> rankResults query unique = Ok l ->
  List.length l <= 20 /\ Sorted scoreGe l.
Proof.
  intros Hq. unfold rankResults.
  destruct (mapM _ unique) as [scoredResults|e] eqn:E; cbn [bind]; [|discriminate].
  intros [= <-]. unfold slice. cbn [skipn Nat.sub]. split.
  - apply firstn_le_length.
  - apply Sorted_firstn. apply sort_Sorted.
    eapply mapM_Forall; [|exact E]. intros x y. now apply scored_finite.
Qed.

(** ** The pipeline *)

Lemma searchResults_string w query p s :
  preprocessSearchTerm query = VString p ->
  searchResults w query s = (rankedOf w query p, dispatch (batchOf p) s).
Proof.
  intros Hp. unfold searchResults. rewrite Hp, generateSearchVariations_spec.
  unfold bindM, lift, fetchAll, rankedOf. fold (batchOf p).
  destruct (awaitAll (settle w (batchOf p))) as [responses|e]; cbn [bind]; [|reflexivity].
  destruct (collectResults responses) as [allResults|e]; cbn [bind]; reflexivity.
Qed.

Lemma searchResults_object w query name s :
  preprocessSearchTerm query = VObject name ->
  searchResults w query s = (Throw TypeError, s).
Proof. intros Hp. unfold searchResults. rewrite Hp. reflexivity. Qed.

(** What [fetchMovies] does on a non-empty query, by the outcome of
    [searchResults]. *)
Lemma fetchMovies_search w query s :
  query <> "" ->
  fetchMovies w query s =
  match searchResults w query (entered s) with
  | (Throw e, s1) => failed e s1
  | (Ok [], s1) => setIsLoading false (setMovieList [] s1)
  | (Ok (top :: rest), s1) =>
      match updateSearchCount w query top with
      | CountResolved => setIsLoading false (record query top (setMovieList (top :: rest) s1))
      | CountRejected => failed CounterError (record query top (setMovieList (top :: rest) s1))
      end
  end.
Proof.
  intros Hq. unfold fetchMovies, tryCatchFinally. fold (entered s).
  destruct query as [|c query]; [congruence|].
  unfold searchBranch, bindM.
  destruct (searchResults w (String c query) (entered s)) as [[sorted|e] s1]; [|reflexivity].
  unfold effect. destruct sorted as [|top rest]; [reflexivity|].
  unfold awaitCount. destruct (updateSearchCount w (String c query) top); reflexivity.
Qed.

Lemma searchResults_ranked w query s l s1 :
  searchResults w query s = (Ok l, s1) ->
  exists unique, rankResults query unique = Ok l.
Proof.
  destruct (preprocessSearchTerm query) as [p|name] eqn:Hp.
  - rewrite (searchResults_string w query p s Hp). unfold rankedOf.
    destruct (awaitAll _) as [responses|e]; cbn [bind]; [|discriminate].
    destruct (collectResults responses) as [allResults|e]; cbn [bind]; [|discriminate].
    intros [= H _]. eauto.
  - rewrite (searchResults_object w query name s Hp). discriminate.
Qed.

Lemma searchResults_frame w query s r s1 :
  searchResults w query s = (r, s1) ->
  movieList s1 = movieList s /\ errorMessage s1 = errorMessage s /\
  isLoading s1 = isLoading s /\ recorded s1 = recorded s /\ logged s1 = logged s.
Proof.
  destruct (preprocessSearchTerm query) as [p|name] eqn:Hp.
  - rewrite (searchResults_string w query p s Hp). intros [= _ <-]. repeat split.
  - rewrite (searchResults_object w query name s Hp). intros [= _ <-]. repeat split.
Qed.

Lemma searchResults_result w query s s' :
  fst (searchResults w query s) = fst (searchResults w query s').
Proof.
  destruct (preprocessSearchTerm query) as [p|name] eqn:Hp.
  - now rewrite !(searchResults_string w query p _ Hp).
  - now rewrite !(searchResults_object w query name _ Hp).
Qed.

(** The ranking returns when every item has a title. *)
Lemma rankResults_returns query unique :
  Forall (fun movie => title movie <> None) unique ->
  exists l, rankResults query unique = Ok l.
Proof.
  intros H. unfold rankResults.
  assert (exists scored,
             mapM (fun movie =>
                     score <- calculateRelevanceScore movie query ;;
                     Ok (withScore movie score)) unique = Ok scored) as (scored & ->).
  { induction H as [|movie unique Hm H (scored & IH)]; [now exists []|].
    destruct (title movie) as [t|] eqn:Ht; [|congruence].
    destruct (calculateRelevanceScore_returns movie t query Ht) as (v & Hv).
    cbn [mapM]. rewrite Hv. cbn [bind]. rewrite IH. cbn [bind]. eauto. }
  cbn [bind]. eauto.
Qed.

(** C1.  For a non-empty query, the list that [fetchMovies] delivers has
    at most 20 items and is sorted by descending score: of two adjacent
    items the first has a score at least that of the second.  (When the
    [try] block throws before line 205 no list is delivered and the one
    on display stays.) *)
Theorem ranked_list_capped_and_sorted (w : World) (query : string) (s : State) :
  query <> "" ->
  movieList (fetchMovies w query s) = movieList s \/
  (List.length (movieList (fetchMovies w query s)) <= 20 /\
   Sorted scoreGe (movieList (fetchMovies w query s))).
Proof.
  intros Hq. rewrite (fetchMovies_search w query s Hq).
  destruct (searchResults w query (entered s)) as [[sorted|e] s1] eqn:E.
  - right. destruct (searchResults_ranked _ _ _ _ _ E) as (unique & R).
    destruct (rankResults_sorted query unique sorted Hq R) as [L S].
    destruct sorted as [|top rest]; [split; [cbn; lia | constructor]|].
    destruct (updateSearchCount w query top); split; assumption.
  - left. apply searchResults_frame in E as (E1 & _). cbn. exact E1.
Qed.

Lemma ranked_list_capped_and_sorted_witness :
  movieList (fetchMovies catalogWorld "iron" idle) = movieList idle \/
  (List.length (movieList (fetchMovies catalogWorld "iron" idle)) <= 20 /\
   Sorted scoreGe (movieList (fetchMovies catalogWorld "iron" idle))).
Proof.
  apply (ranked_list_capped_and_sorted catalogWorld "iron" idle). discriminate.
Defined.

Example fetchMovies_iron :
  map (fun movie => (id movie, title movie)) (movieList (fetchMovies catalogWorld "iron" idle))
  = [(2%Z, Some "Iron"); (1%Z, Some "Iron Man")].
Proof. vm_compute. reflexivity. Qed.

(** ** The batch *)

Example dispatched_ironman :
  dispatched (fetchMovies catalogWorld "ironman" idle)
  = map SearchMovie ["iron man"; "eron man"; "aron man"; "irun man"; "iron"; "man"; "iro"].
Proof. vm_compute. reflexivity. Qed.

(** A trailing space leaves an empty piece, which is requested too. *)
Lemma dispatched_batch_trailing_space :
  preprocessSearchTerm "iron man " = VString "iron man " /\
  dispatched (fetchMovies catalogWorld "iron man " idle)
  = map SearchMovie
      ["iron man "; "eron man "; "aron man "; "irun man "; "iron"; "man"; ""; "iro"] /\
  map SearchMovie (specQueries "iron man " (specVariations "iron man "))
  = map SearchMovie
      ["iron man "; "eron man "; "aron man "; "irun man "; "iron"; "man"; "iro"] /\
  dispatched (fetchMovies catalogWorld "iron man " idle)
  <> map SearchMovie (specQueries "iron man " (specVariations "iron man ")).
Proof.
  split; [reflexivity|]. split; [vm_compute; reflexivity|].
  split; [vm_compute; reflexivity|]. vm_compute. discriminate.
Qed.

(** ** Failing sub-requests *)

Lemma awaitAll_rejected l : In Rejected l -> awaitAll l = Throw NetworkError.
Proof.
  induction l as [|x l IH]; [intros []|]. intros [->|H]; [reflexivity|].
  cbn [awaitAll]. destruct x; [reflexivity|]. now rewrite (IH H).
Qed.

Lemma awaitAll_unsuccessful l :
  Forall (fun o => exists body, o = Fulfilled false body) l ->
  exists responses, awaitAll l = Ok responses /\ Forall (fun r => fst r = false) responses.
Proof.
  intros H. induction H as [|x l (body & ->) Hl (responses & IH & F)].
  - exists []. split; [reflexivity | constructor].
  - exists ((false, body) :: responses). cbn [awaitAll]. rewrite IH.
    split; [reflexivity | now constructor].
Qed.

Lemma collectResults_unsuccessful responses :
  Forall (fun r => fst r = false) responses -> collectResults responses = Ok [].
Proof.
  unfold collectResults. generalize (@nil Movie) as allResults.
  intros allResults H. revert allResults.
  induction H as [|r responses Hr H IH]; intros allResults; [reflexivity|].
  cbn [forM]. rewrite Hr. cbn [bind]. apply IH.
Qed.

Lemma awaitAll_fulfilled l :
  existsb isRejected l = false -> Forall failedRequest l ->
  exists responses, awaitAll l = Ok responses /\ Forall (fun r => fst r = false) responses.
Proof.
  intros Hno Hall. apply awaitAll_unsuccessful.
  induction Hall as [|o l Ho Hall IH]; [constructor|].
  cbn [existsb] in Hno. apply orb_false_iff in Hno as [Hr Hno].
  constructor; [|now apply IH].
  destruct o as [|ok body]; [discriminate|]. cbn in Ho. subst ok. now exists body.
Qed.

(** When every request fails in transport the search ends in the error
    text, and the list on display is the earlier one, not an empty
    one. *)
Lemma transport_failure_is_search_failure :
  errorMessage (fetchMovies networkDownWorld "iron" (showing samplePage)) = errorText /\
  logged (fetchMovies networkDownWorld "iron" (showing samplePage)) = [NetworkError] /\
  movieList (fetchMovies networkDownWorld "iron" (showing samplePage)) = samplePage /\
  render "iron" (fetchMovies networkDownWorld "iron" (showing samplePage))
  = ErrorText errorText.
Proof. repeat split; vm_compute; reflexivity. Qed.

(** ** The counting call *)

(** What [fetchMovies] does with the promise of the counting call,
    however it settles.  The list is stored before the call and stays;
    the call is made with the raw query and the top item; the call is
    awaited inside the [try] block, so a promise that resolves leaves no
    error, and a rejected one would reach the handler of the search. *)
Lemma counting_outcome (w : World) (query : string) (s : State) (top : Movie)
    (rest : list Movie) :
  query <> "" ->
  fst (searchResults w query s) = Ok (top :: rest) ->
  movieList (fetchMovies w query s) = top :: rest /\
  recorded (fetchMovies w query s) = recorded s ++ [(query, top)] /\
  isLoading (fetchMovies w query s) = false /\
  match updateSearchCount w query top with
  | CountResolved =>
      errorMessage (fetchMovies w query s) = "" /\
      logged (fetchMovies w query s) = logged s
  | CountRejected =>
      errorMessage (fetchMovies w query s) = errorText /\
      logged (fetchMovies w query s) = logged s ++ [CounterError]
  end.
Proof.
  intros Hq Hr. rewrite (fetchMovies_search w query s Hq).
  rewrite (searchResults_result w query s (entered s)) in Hr.
  destruct (searchResults w query (entered s)) as [r s1] eqn:E. cbn [fst] in Hr. subst r.
  apply searchResults_frame in E as (_ & Herr & _ & Hrec & Hlog).
  cbn in Herr, Hrec, Hlog.
  destruct (updateSearchCount w query top); cbn; rewrite Hrec, Hlog;
    repeat split; exact Herr.
Qed.

(** C3.  For a non-empty query whose ranked list is not empty, with the
    counting collaborator of the specification: whatever the store does
    with the write, a failure included, the ranked list is delivered as
    it was ranked, no error text is set, the search logs nothing, the
    loading flag is cleared, and the call has been made once, with the
    raw query and the top item.  The search ends in the same state as
    with a store that takes the write. *)
Theorem counter_failure_is_swallowed (fetch : nat -> Request -> Settled)
    (store : string -> Movie -> StoreOutcome) (query : string) (s : State)
    (top : Movie) (rest : list Movie) :
  query <> "" ->
  fst (searchResults (mkWorld fetch (recordSearch store)) query s) = Ok (top :: rest) ->
  movieList (fetchMovies (mkWorld fetch (recordSearch store)) query s) = top :: rest /\
  errorMessage (fetchMovies (mkWorld fetch (recordSearch store)) query s) = "" /\
  logged (fetchMovies (mkWorld fetch (recordSearch store)) query s) = logged s /\
  isLoading (fetchMovies (mkWorld fetch (recordSearch store)) query s) = false /\
  recorded (fetchMovies (mkWorld fetch (recordSearch store)) query s)
  = recorded s ++ [(query, top)] /\
  fetchMovies (mkWorld fetch (recordSearch store)) query s
  = fetchMovies (mkWorld fetch (recordSearch (fun _ _ => Stored))) query s.
Proof.
  intros Hq Hr.
  assert (R : forall store',
             fetchMovies (mkWorld fetch (recordSearch store')) query s
             = setIsLoading false
                 (record query top
                    (setMovieList (top :: rest)
                       (snd (searchResults (mkWorld fetch (recordSearch store)) query
                               (entered s)))))).
  { intros store'. rewrite (fetchMovies_search _ query s Hq).
    rewrite (searchResults_result _ query s (entered s)) in Hr.
    replace (searchResults (mkWorld fetch (recordSearch store')) query (entered s))
      with (searchResults (mkWorld fetch (recordSearch store)) query (entered s))
      by (unfold searchResults, fetchAll, settle; reflexivity).
    destruct (searchResults (mkWorld fetch (recordSearch store)) query (entered s))
      as [r s1]. cbn [fst snd] in *. subst r.
    cbn [updateSearchCount]. unfold recordSearch.
    destruct (store' query top); reflexivity. }
  rewrite !R.
  destruct (searchResults (mkWorld fetch (recordSearch store)) query (entered s))
    as [r s1] eqn:E.
  apply searchResults_frame in E as (_ & Herr & _ & Hrec & Hlog).
  cbn in Herr, Hrec, Hlog. cbn. rewrite Hrec, Hlog. repeat split. exact Herr.
Qed.

Lemma counter_failure_is_swallowed_witness :
  movieList (fetchMovies storeDownWorld "iron" idle)
  = withScore (sampleMovie 2 "Iron") (Num (24256000 # 64000))
    :: [withScore (sampleMovie 1 "Iron Man") (Num (3824000 # 16000))] /\
  errorMessage (fetchMovies storeDownWorld "iron" idle) = "" /\
  logged (fetchMovies storeDownWorld "iron" idle) = logged idle /\
  isLoading (fetchMovies storeDownWorld "iron" idle) = false /\
  recorded (fetchMovies storeDownWorld "iron" idle)
  = recorded idle ++ [("iron", withScore (sampleMovie 2 "Iron") (Num (24256000 # 64000)))] /\
  fetchMovies storeDownWorld "iron" idle
  = fetchMovies (mkWorld (fetch catalogWorld) (recordSearch (fun _ _ => Stored))) "iron" idle.
Proof.
  apply (counter_failure_is_swallowed (fetch catalogWorld) (fun _ _ => StoreFailed) "iron" idle).
  - discriminate.
  - vm_compute. reflexivity.
Defined.

(** ** Worked examples *)

(** Two successful responses that both hold the item 42: the merged list
    holds it once, the first occurrence. *)
Example uniqueResults_two_responses :
  collectResults
    [ (true, Parsed (Some [sampleMovie 42 "Alien"; sampleMovie 7 "Aliens"]));
      (false, Parsed (Some [sampleMovie 9 "Dropped"]));
      (true, Parsed None);
      (true, Parsed (Some [sampleMovie 42 "Alien (again)"])) ]
  = Ok [sampleMovie 42 "Alien"; sampleMovie 7 "Aliens"; sampleMovie 42 "Alien (again)"] /\
  uniqueResults
    [sampleMovie 42 "Alien"; sampleMovie 7 "Aliens"; sampleMovie 42 "Alien (again)"]
  = [sampleMovie 42 "Alien"; sampleMovie 7 "Aliens"].
Proof. split; reflexivity. Qed.

(** The alias table is an object literal: a query whose trimmed
    lower-case form names a property that object literals inherit finds
    a value that is not a string, and the search ends in the handler
    before any request is issued. *)
Example fetchMovies_inherited_key :
  preprocessSearchTerm " Constructor" = VObject "constructor" /\
  fetchMovies catalogWorld " Constructor" idle
  = mkState [] errorText false [] [] [TypeError].
Proof. split; reflexivity. Qed.

(** The empty query issues the one discover request; its list is stored
    as it comes, and a non-success status is an error. *)
Example fetchMovies_empty_query :
  fetchMovies catalogWorld "" idle
  = mkState samplePage "" false [DiscoverMovie] [] [] /\
  fetchMovies serviceErrorWorld "" (showing samplePage)
  = mkState samplePage errorText false [DiscoverMovie] []
            [Error "Failed to fetch movies"].
Proof. split; reflexivity. Qed.

(** ** More on the edit distance *)

Lemma levCell_ge_diff str1 str2 i j :
  i - j <= levCell str1 str2 i j /\ j - i <= levCell str1 str2 i j.
Proof.
  revert j. induction i as [|i IHi]; intros j.
  - rewrite levCell_0. lia.
  - induction j as [|j IHj].
    + rewrite levCell_S_0. lia.
    + rewrite levCell_S_S. pose proof (IHi j). pose proof (IHi (S j)).
      destruct (charAt str2 i =? charAt str1 j)%string; lia.
Qed.

Lemma charAt_cons c s k : charAt (String c s) (S k) = charAt s k.
Proof. reflexivity. Qed.

Lemma levCell_zero str1 str2 i j :
  levCell str1 str2 i j = 0 ->
  i = j /\ forall k, k < i -> charAt str2 k = charAt str1 k.
Proof.
  revert j. induction i as [|i IH]; intros j.
  - rewrite levCell_0. intros ->. split; [reflexivity | intros k Hk; lia].
  - destruct j as [|j]; [rewrite levCell_S_0; discriminate|].
    rewrite levCell_S_S.
    destruct (charAt str2 i =? charAt str1 j)%string eqn:E; [|lia].
    intros H. destruct (IH j H) as [<- Hk]. split; [reflexivity|].
    intros k Hlt. destruct (Nat.eq_dec k i) as [->|N].
    + now apply String.eqb_eq.
    + apply Hk. lia.
Qed.

Lemma string_ext (a b : string) :
  String.length a = String.length b ->
  (forall k, k < String.length a -> charAt b k = charAt a k) ->
  a = b.
Proof.
  revert b. induction a as [|c a IH]; intros [|c' b]; cbn [String.length];
    try discriminate; [reflexivity|].
  intros [= Hlen] Hk. f_equal.
  - specialize (Hk 0 ltac:(lia)). cbn in Hk. congruence.
  - apply IH; [exact Hlen|]. intros k Hlt.
    specialize (Hk (S k) ltac:(lia)). now rewrite !charAt_cons in Hk.
Qed.

(** X1.  The distance lies between the difference of the two lengths
    and the greater of them; in particular the distance to the empty
    string is the length of the other string. *)
Theorem levenshteinDistance_bounds (a b : string) :
  exists d,
    levenshteinDistance a b = Ok d /\
    String.length a - String.length b <= d /\
    String.length b - String.length a <= d /\
    d <= Nat.max (String.length a) (String.length b).
Proof.
  exists (levCell a b (String.length b) (String.length a)).
  split; [apply levenshteinDistance_table|].
  pose proof (levCell_ge_diff a b (String.length b) (String.length a)).
  pose proof (levCell_le_max a b (String.length b) (String.length a)). lia.
Qed.

(** X2.  The distance is 0 exactly for equal strings. *)
Theorem levenshteinDistance_zero_iff_equal (a b : string) :
  levenshteinDistance a b = Ok 0 <-> a = b.
Proof.
  rewrite levenshteinDistance_table. split.
  - intros [= H]. apply levCell_zero in H as [Hlen Hk].
    apply string_ext; [congruence|]. intros k Hlt. apply Hk. lia.
  - intros ->. f_equal. apply levCell_diag.
Qed.

(** The cells of the table of a string depend on the prefix read so
    far only. *)
Lemma charAt_append_left a x k :
  k < String.length a -> charAt (a ++ x) k = charAt a k.
Proof.
  revert k. induction a as [|c a IH]; intros k Hk; [cbn in Hk; lia|].
  destruct k as [|k]; [reflexivity|].
  cbn [append]. rewrite !charAt_cons. apply IH. cbn in Hk. lia.
Qed.

Lemma levCell_append_left a x b i j :
  j <= String.length a -> levCell (a ++ x) b i j = levCell a b i j.
Proof.
  revert j. induction i as [|i IHi]; intros j Hj; [reflexivity|].
  induction j as [|j IHj]; [reflexivity|].
  rewrite !levCell_S_S, charAt_append_left by lia.
  rewrite (IHi j), (IHi (S j)), IHj by lia. reflexivity.
Qed.

Lemma length_append (a b : string) :
  String.length (a ++ b) = String.length a + String.length b.
Proof. induction a as [|c a IH]; cbn; [reflexivity | now rewrite IH]. Qed.

(** Neighbouring cells of the table differ by at most one. *)
Lemma levCell_step str1 str2 i j :
  (levCell str1 str2 i (S j) <= levCell str1 str2 i j + 1 /\
   levCell str1 str2 i j <= levCell str1 str2 i (S j) + 1) /\
  (levCell str1 str2 (S i) j <= levCell str1 str2 i j + 1 /\
   levCell str1 str2 i j <= levCell str1 str2 (S i) j + 1).
Proof.
  revert j. induction i as [|i IHi]; intros j.
  - split; [rewrite !levCell_0; lia|].
    induction j as [|j IHj]; [rewrite levCell_S_0, levCell_0; lia|].
    rewrite levCell_S_S, !levCell_0 in *.
    destruct (charAt str2 0 =? charAt str1 j)%string; lia.
  - assert (V : forall j, levCell str1 str2 (S (S i)) j <= levCell str1 str2 (S i) j + 1 /\
                          levCell str1 str2 (S i) j <= levCell str1 str2 (S (S i)) j + 1).
    { intros j0. induction j0 as [|j0 IHj0]; [rewrite !levCell_S_0; lia|].
      rewrite (levCell_S_S str1 str2 (S i) j0).
      pose proof (IHi j0) as [[A1 A2] [A3 A4]].
      pose proof (IHi (S j0)) as [_ [A5 A6]].
      assert (H1 : levCell str1 str2 (S i) (S j0) <= levCell str1 str2 (S i) j0 + 1 /\
                   levCell str1 str2 (S i) j0 <= levCell str1 str2 (S i) (S j0) + 1).
      { rewrite (levCell_S_S str1 str2 i j0).
        destruct (charAt str2 i =? charAt str1 j0)%string; lia. }
      destruct (charAt str2 (S i) =? charAt str1 j0)%string; lia. }
    split; [|apply V].
    rewrite (levCell_S_S str1 str2 i j).
    pose proof (IHi j) as [[A1 A2] [A3 A4]]. pose proof (IHi (S j)) as [_ [A5 A6]].
    destruct (charAt str2 i =? charAt str1 j)%string; lia.
Qed.

(** X3.  One more character at the end of a string moves its distance
    to any other string by at most one. *)
Theorem levenshteinDistance_one_more_character (a b : string) (c : ascii) :
  exists d d',
    levenshteinDistance a b = Ok d /\
    levenshteinDistance (a ++ String c "") b = Ok d' /\
    d' <= d + 1 /\ d <= d' + 1.
Proof.
  exists (levCell a b (String.length b) (String.length a)),
         (levCell (a ++ String c "") b (String.length b) (S (String.length a))).
  split; [apply levenshteinDistance_table|]. split.
  - rewrite levenshteinDistance_table. do 2 f_equal.
    rewrite length_append. cbn. lia.
  - rewrite <- (levCell_append_left a (String c "") b (String.length b) (String.length a))
      by lia.
    apply levCell_step.
Qed.

(** *** The distance is the least cost of an alignment *)

Lemma prefixOf_0 s : prefixOf 0 s = "".
Proof. now destruct s. Qed.

Lemma prefixOf_all s : prefixOf (String.length s) s = s.
Proof. unfold prefixOf. induction s as [|c s IH]; cbn; [reflexivity | now rewrite IH]. Qed.

Lemma prefixOf_S s k :
  k < String.length s ->
  exists c, charAt s k = String c "" /\ prefixOf (S k) s = (prefixOf k s ++ String c "")%string.
Proof.
  unfold prefixOf. revert k. induction s as [|x s IH]; intros k Hk; [cbn in Hk; lia|].
  destruct k as [|k].
  - exists x. split; [reflexivity|]. cbn. now destruct s.
  - destruct (IH k) as (c & Hc & Hp); [cbn in Hk; lia|].
    exists c. rewrite charAt_cons. split; [exact Hc|].
    change (String.substring 0 (S (S k)) (String x s)) with (String x (String.substring 0 (S k) s)).
    rewrite Hp. reflexivity.
Qed.

Lemma levCell_column_0 str1 str2 i : levCell str1 str2 i 0 = i.
Proof. destruct i; reflexivity. Qed.

Lemma Alignment_table str1 str2 i j :
  i <= String.length str2 -> j <= String.length str1 ->
  Alignment (prefixOf j str1) (prefixOf i str2) (levCell str1 str2 i j).
Proof.
  revert j. induction i as [|i IHi]; intros j Hi Hj.
  - rewrite levCell_0. clear Hi.
    induction j as [|j IHj]; [rewrite !prefixOf_0; constructor|].
    destruct (prefixOf_S str1 j Hj) as (c & _ & ->).
    apply align_delete, IHj. lia.
  - destruct (prefixOf_S str2 i Hi) as (y & Hy & Py).
    induction j as [|j IHj].
    + rewrite levCell_S_0, Py. apply align_insert.
      pose proof (IHi 0 ltac:(lia) ltac:(lia)) as A.
      rewrite levCell_column_0 in A. exact A.
    + destruct (prefixOf_S str1 j Hj) as (x & Hx & Px).
      rewrite levCell_S_S, Hy, Hx.
      destruct (String.eqb_spec (String y "") (String x "")) as [E|N].
      * injection E as ->. rewrite Px, Py. apply align_keep, IHi; lia.
      * rewrite !Nat.add_1_r.
        destruct (Nat.min_spec (S (levCell str1 str2 i j))
                    (Nat.min (S (levCell str1 str2 (S i) j)) (S (levCell str1 str2 i (S j)))))
          as [[_ ->]|[_ ->]].
        -- rewrite Px, Py. apply align_substitute, IHi; lia.
        -- destruct (Nat.min_spec (S (levCell str1 str2 (S i) j)) (S (levCell str1 str2 i (S j))))
             as [[_ ->]|[_ ->]].
           ++ rewrite Px. apply align_delete, IHj. lia.
           ++ rewrite Py. apply align_insert, IHi; lia.
Qed.

Lemma charAt_append_end a c s : charAt (a ++ String c s) (String.length a) = String c "".
Proof. induction a as [|x a IH]; [reflexivity|]. cbn [append String.length]. now rewrite charAt_cons. Qed.

Lemma levCell_append_right a b y i j :
  i <= String.length b -> levCell a (b ++ y) i j = levCell a b i j.
Proof.
  intros H. rewrite (levCell_sym a (b ++ y)), (levCell_sym a b).
  now apply levCell_append_left.
Qed.

Lemma levCell_snoc_snoc a b x y :
  levCell (a ++ String x "") (b ++ String y "") (S (String.length b)) (S (String.length a))
  = if Ascii.eqb y x then levCell a b (String.length b) (String.length a)
    else Nat.min (levCell a b (String.length b) (String.length a) + 1)
           (Nat.min (levCell a (b ++ String y "") (S (String.length b)) (String.length a) + 1)
                    (levCell (a ++ String x "") b (String.length b) (S (String.length a)) + 1)).
Proof.
  rewrite levCell_S_S, !charAt_append_end.
  rewrite (levCell_append_left a (String x "") (b ++ String y "") (String.length b)) by lia.
  rewrite (levCell_append_right a b (String y "") (String.length b)) by lia.
  rewrite (levCell_append_left a (String x "") (b ++ String y "") (S (String.length b))) by lia.
  rewrite (levCell_append_right (a ++ String x "") b (String y "") (String.length b)) by lia.
  cbn [String.eqb]. destruct (Ascii.eqb y x); reflexivity.
Qed.

Lemma Alignment_cost a b n :
  Alignment a b n -> levCell a b (String.length b) (String.length a) <= n.
Proof.
  intros H. induction H as [|a b n c H IH|a b n c c' H IH|a b n c H IH|a b n c H IH].
  - reflexivity.
  - rewrite !length_append. cbn [String.length]. rewrite !Nat.add_1_r.
    rewrite levCell_snoc_snoc, Ascii.eqb_refl. exact IH.
  - rewrite !length_append. cbn [String.length]. rewrite !Nat.add_1_r.
    rewrite levCell_snoc_snoc. destruct (Ascii.eqb c' c); lia.
  - rewrite length_append. cbn [String.length]. rewrite Nat.add_1_r.
    pose proof (levCell_step (a ++ String c "") b (String.length b) (String.length a))
      as [[L _] _].
    rewrite (levCell_append_left a (String c "") b (String.length b) (String.length a))
      in L by lia.
    lia.
  - rewrite length_append. cbn [String.length]. rewrite Nat.add_1_r.
    pose proof (levCell_step a (b ++ String c "") (String.length b) (String.length a))
      as [_ [L _]].
    rewrite (levCell_append_right a b (String c "") (String.length b) (String.length a))
      in L by lia.
    lia.
Qed.

(** X4.  The number returned is the edit distance: it is the cost of
    an alignment of the two strings, and no alignment costs less. *)
Theorem levenshteinDistance_least_alignment (a b : string) :
  exists d,
    levenshteinDistance a b = Ok d /\
    Alignment a b d /\
    forall n, Alignment a b n -> d <= n.
Proof.
  exists (levCell a b (String.length b) (String.length a)).
  split; [apply levenshteinDistance_table|]. split.
  - rewrite <- (prefixOf_all a) at 1. rewrite <- (prefixOf_all b) at 1.
    apply Alignment_table; lia.
  - apply Alignment_cost.
Qed.

(** ** The fuzzy score of [calculateFuzzyScore] *)

(** *** [indexOf] of one character *)

Lemma prefix_unit c b text :
  String.prefix (String c "") (String b text) = if ascii_dec c b then true else false.
Proof. cbn. destruct (ascii_dec c b); [now destruct text | reflexivity]. Qed.

Lemma index_unit_None text : forall next c,
  String.index next (String c "") text = None ->
  forall j, next <= j -> String.get j text <> Some c.
Proof.
  induction text as [|b text IH]; intros next c E j Hj; [discriminate|].
  destruct next as [|next].
  - cbn [String.index] in E. rewrite prefix_unit in E.
    destruct (ascii_dec c b) as [->|N]; [discriminate|].
    destruct (String.index 0 (String c "") text) eqn:E'; [discriminate|].
    destruct j as [|j]; cbn [String.get]; [congruence|]. apply (IH 0 c E'). lia.
  - cbn [String.index] in E.
    destruct (String.index next (String c "") text) eqn:E'; [discriminate|].
    destruct j as [|j]; [lia|]. cbn [String.get]. apply (IH next c E'). lia.
Qed.

Lemma index_unit_Some text : forall next c k,
  String.index next (String c "") text = Some k ->
  next <= k /\ String.get k text = Some c /\
  forall j, next <= j -> j < k -> String.get j text <> Some c.
Proof.
  induction text as [|b text IH]; intros next c k E; [destruct next; discriminate|].
  destruct next as [|next].
  - cbn [String.index] in E. rewrite prefix_unit in E.
    destruct (ascii_dec c b) as [->|N].
    + injection E as <-. repeat split; [lia|]. intros j _ Hj. lia.
    + destruct (String.index 0 (String c "") text) as [k'|] eqn:E'; [|discriminate].
      injection E as <-. destruct (IH 0 c k' E') as (_ & Hk & Hfirst).
      repeat split; [lia | exact Hk |].
      intros [|j] _ Hj; cbn [String.get]; [congruence | apply Hfirst; lia].
  - cbn [String.index] in E.
    destruct (String.index next (String c "") text) as [k'|] eqn:E'; [|discriminate].
    injection E as <-. destruct (IH next c k' E') as (Hn & Hk & Hfirst).
    repeat split; [lia | exact Hk |].
    intros [|j] Hj1 Hj2; [lia|]. cbn [String.get]. apply Hfirst; lia.
Qed.

(** The first occurrence at or after [next] is found. *)
Lemma index_unit_first text next c k :
  next <= k -> String.get k text = Some c ->
  exists k0, String.index next (String c "") text = Some k0 /\ next <= k0 <= k.
Proof.
  intros Hk Hc. destruct (String.index next (String c "") text) as [k0|] eqn:E.
  - exists k0. split; [reflexivity|].
    destruct (index_unit_Some text next c k0 E) as (Hn & _ & Hfirst).
    split; [exact Hn|]. destruct (Nat.le_gt_cases k0 k) as [L|L]; [exact L|].
    exfalso. now apply (Hfirst k).
  - exfalso. now apply (index_unit_None text next c E k).
Qed.

(** *** The scan *)

Lemma indexOf_unit text c next :
  indexOf text (String c "") (Z.of_nat next)
  = match String.index next (String c "") text with
    | Some k => Z.of_nat k
    | None => (-1)%Z
    end.
Proof. unfold indexOf. now rewrite Nat2Z.id. Qed.

Lemma units_unit query char : In char (units query) -> exists c, char = String c "".
Proof.
  induction query as [|c query IH]; [intros []|]. intros [<-|H]; eauto.
Qed.

Lemma length_units query : List.length (units query) = String.length query.
Proof. induction query; cbn; congruence. Qed.

Lemma fold_scanFrom text chars :
  (forall char, In char chars -> exists c, char = String c "") ->
  forall next matchCount,
    fst (fold_left
           (fun '(matchCount, lastIndex) char =>
              let index := indexOf text char (lastIndex + 1)%Z in
              if (index >? lastIndex)%Z then (matchCount + 1, index)
              else (matchCount, lastIndex))
           chars (matchCount, (Z.of_nat next - 1)%Z))
    = scanFrom text chars next matchCount.
Proof.
  induction chars as [|char chars IH]; intros Hunits next matchCount; [reflexivity|].
  destruct (Hunits char (or_introl eq_refl)) as (c & ->).
  cbn [fold_left scanFrom].
  replace (Z.of_nat next - 1 + 1)%Z with (Z.of_nat next) by lia.
  rewrite indexOf_unit.
  destruct (String.index next (String c "") text) as [k|] eqn:E.
  - apply index_unit_Some in E as (Hn & _ & _).
    destruct (Z.gtb_spec (Z.of_nat k) (Z.of_nat next - 1)); [|lia].
    replace (Z.of_nat k) with (Z.of_nat (S k) - 1)%Z by lia.
    rewrite Nat.add_1_r. apply IH. intros; apply Hunits; now right.
  - destruct (Z.gtb_spec (-1) (Z.of_nat next - 1)); [lia|].
    apply IH. intros; apply Hunits; now right.
Qed.

Lemma calculateFuzzyScore_scanFrom text query :
  calculateFuzzyScore text query
  = div (ofNat (scanFrom text (units query) 0 0)) (ofNat (String.length query)).
Proof.
  unfold calculateFuzzyScore.
  pose proof (fold_scanFrom text (units query) (units_unit query) 0 0) as H.
  cbn [Z.of_nat Z.sub Z.opp Z.add] in H. change (0 - 1)%Z with (-1)%Z in H.
  destruct (fold_left _ (units query) (0, (-1)%Z)) as (matchCount, lastIndex).
  cbn [fst] in H. now subst matchCount.
Qed.

Lemma scanFrom_le text chars next matchCount :
  scanFrom text chars next matchCount <= matchCount + List.length chars.
Proof.
  revert next matchCount. induction chars as [|char chars IH]; intros next matchCount;
    cbn [scanFrom List.length]; [lia|].
  destruct (String.index next char text) as [k|].
  - specialize (IH (S k) (S matchCount)). lia.
  - specialize (IH next matchCount). lia.
Qed.

Lemma scanFrom_ge text chars next matchCount :
  matchCount <= scanFrom text chars next matchCount.
Proof.
  revert next matchCount. induction chars as [|char chars IH]; intros next matchCount;
    cbn [scanFrom]; [lia|].
  destruct (String.index next char text) as [k|].
  - specialize (IH (S k) (S matchCount)). lia.
  - apply IH.
Qed.

(** X5.  On the empty query the fuzzy score is NaN (0 divided by 0); on
    every other query it is a number between 0 and 1. *)
Theorem calculateFuzzyScore_range (text query : string) :
  match query with
  | EmptyString => calculateFuzzyScore text query = NaN
  | String _ _ => exists q, calculateFuzzyScore text query = Num q /\ (0 <= q <= 1)%Q
  end.
Proof.
  destruct query as [|c query]; [reflexivity|].
  rewrite calculateFuzzyScore_scanFrom.
  unfold ofNat at 1. rewrite div_ofNat by (cbn; lia).
  eexists. split; [reflexivity|].
  pose proof (scanFrom_le text (units (String c query)) 0 0) as L.
  rewrite length_units in L. cbn [Nat.add] in L.
  pose proof (inject_nat_pos (String.length (String c query)) ltac:(cbn; lia)) as P.
  split.
  - apply Qdiv_nonneg; [apply inject_nat_nonneg | exact P].
  - apply Qdiv_le_1; [now apply inject_nat_le | exact P].
Qed.

(** *** Full score and subsequences *)

Lemma OccurFrom_earlier text next next' chars :
  next' <= next -> OccurFrom text next chars -> OccurFrom text next' chars.
Proof.
  intros Hn H. destruct H as [|next k c chars Hk Hc H]; [constructor|].
  apply (occur_at text next' k); [lia | exact Hc | exact H].
Qed.

Lemma scanFrom_full text chars :
  (forall char, In char chars -> exists c, char = String c "") ->
  forall next matchCount,
    scanFrom text chars next matchCount = matchCount + List.length chars <->
    OccurFrom text next chars.
Proof.
  induction chars as [|char chars IH]; intros Hunits next matchCount.
  - cbn. split; [constructor | lia].
  - destruct (Hunits char (or_introl eq_refl)) as (c & ->).
    assert (Hunits' : forall char, In char chars -> exists c, char = String c "")
      by (intros; apply Hunits; now right).
    cbn [scanFrom List.length]. split.
    + intros H. destruct (String.index next (String c "") text) as [k|] eqn:E.
      * apply index_unit_Some in E as (Hn & Hc & _).
        apply (occur_at text next k); [exact Hn | exact Hc |].
        apply (IH Hunits' (S k) (S matchCount)). lia.
      * pose proof (scanFrom_le text chars next matchCount). lia.
    + intros H. inversion H as [|n k c0 chars0 Hk Hc Hrest]; subst.
      destruct (index_unit_first text next c k Hk Hc) as (k0 & -> & Hk0).
      apply (OccurFrom_earlier text (S k) (S k0)) in Hrest; [|lia].
      apply (IH Hunits' (S k0) (S matchCount)) in Hrest. lia.
Qed.

Lemma OccurFrom_shift b text next chars :
  OccurFrom (String b text) (S next) chars <-> OccurFrom text next chars.
Proof.
  revert next. induction chars as [|char chars IH]; intros next.
  - split; constructor.
  - split; intros H; inversion H as [|n k c chars0 Hk Hc Hrest]; subst.
    + destruct k as [|k]; [lia|]. cbn [String.get] in Hc.
      apply (occur_at text next k); [lia | exact Hc | now apply IH].
    + apply (occur_at (String b text) (S next) (S k)); [lia | exact Hc | now apply IH].
Qed.

Lemma OccurFrom_Subsequence text : forall query,
  OccurFrom text 0 (units query) <-> Subsequence query text.
Proof.
  induction text as [|b text IH]; intros query.
  - split.
    + intros H. destruct query as [|c query]; [constructor|].
      inversion H as [|n k c0 chars0 Hk Hc Hrest]; subst. destruct k; discriminate.
    + intros H. inversion H; subst. constructor.
  - split.
    + intros H. destruct query as [|c query]; [constructor|].
      cbn [units] in H. inversion H as [|n k c0 chars0 Hk Hc Hrest]; subst.
      destruct k as [|k].
      * cbn [String.get] in Hc. injection Hc as ->.
        apply sub_take, IH. now apply (OccurFrom_shift c text 0).
      * apply sub_skip, IH. cbn [units].
        apply (OccurFrom_shift b text 0).
        apply (occur_at (String b text) 1 (S k)); [lia | exact Hc | exact Hrest].
    + intros H. inversion H as [t|q c t Hq|q c t Hq]; subst.
      * constructor.
      * apply (OccurFrom_earlier _ 1); [lia|]. apply OccurFrom_shift, IH, Hq.
      * cbn [units]. apply (occur_at (String b text) 0 0); [lia | reflexivity|].
        apply OccurFrom_shift, IH, Hq.
Qed.

(** The scan finds every character exactly when the query is a
    subsequence of the text. *)
Lemma scanFrom_Subsequence text query :
  scanFrom text (units query) 0 0 = String.length query <-> Subsequence query text.
Proof.
  rewrite <- OccurFrom_Subsequence, <- (length_units query).
  apply (scanFrom_full text (units query) (units_unit query) 0 0).
Qed.

Lemma Subsequence_refl s : Subsequence s s.
Proof. induction s; constructor; assumption. Qed.

(** The score of a non-empty query that is a subsequence of the text is
    the full ratio. *)
Lemma calculateFuzzyScore_Subsequence text query :
  query <> "" -> Subsequence query text ->
  exists q, calculateFuzzyScore text query = Num q /\ (q == 1)%Q.
Proof.
  intros Hq H. rewrite calculateFuzzyScore_scanFrom.
  apply scanFrom_Subsequence in H. rewrite H.
  assert (0 < String.length query) as P by (destruct query; [congruence | cbn; lia]).
  unfold ofNat at 1. rewrite div_ofNat by exact P. eexists. split; [reflexivity|].
  unfold Qdiv. apply Qmult_inv_r. pose proof (inject_nat_pos _ P). lra.
Qed.

(** X6.  When the fuzzy score is 1, the query is a subsequence of the
    text: every code unit of the query was found, each after the one
    before. *)
Theorem calculateFuzzyScore_full_is_subsequence (text query : string) :
  (exists q, calculateFuzzyScore text query = Num q /\ (q == 1)%Q) ->
  Subsequence query text.
Proof.
  intros (q & H & Hone).
  destruct (String.eqb_spec query "") as [->|Hq]; [constructor|].
  apply scanFrom_Subsequence.
  rewrite calculateFuzzyScore_scanFrom in H.
  assert (0 < String.length query) as P by (destruct query; [congruence | cbn; lia]).
  unfold ofNat at 1 in H. rewrite div_ofNat in H by exact P. injection H as <-.
  pose proof (inject_nat_pos _ P) as Pq.
  assert (E : (inject_Z (Z.of_nat (scanFrom text (units query) 0 0))
               == inject_Z (Z.of_nat (String.length query)))%Q).
  { apply (Qmult_inj_r _ _ (/ inject_Z (Z.of_nat (String.length query)))).
    - intros Z0. apply (Qinv_lt_0_compat _) in Pq. rewrite Z0 in Pq.
      exact (Qlt_irrefl 0 Pq).
    - unfold Qdiv in Hone. rewrite Hone. symmetry. apply Qmult_inv_r.
      clear - Pq. lra. }
  now apply Nat2Z.inj, (proj1 (inject_Z_injective _ _)).
Qed.

Lemma calculateFuzzyScore_full_is_subsequence_witness :
  Subsequence "tin" "the iron giant".
Proof.
  apply (calculateFuzzyScore_full_is_subsequence "the iron giant" "tin").
  exists (3 # 3)%Q. split; reflexivity.
Defined.

(** ** Bounds of the relevance score *)

Lemma bonus_exact (c : bool) q n :
  exists q', (if c then add (Num q) (Num n) else Num q) = Num q'
             /\ (q' == q + (if c then n else 0))%Q.
Proof. destruct c; eexists; (split; [reflexivity|]); lra. Qed.

Lemma prefix_refl s : String.prefix s s = true.
Proof.
  induction s as [|c s IH]; [reflexivity|]. cbn.
  destruct (ascii_dec c c); [exact IH | contradiction].
Qed.

Lemma includes_refl s : includes s s = true.
Proof.
  unfold includes. destruct s as [|c s]; [reflexivity|].
  cbn [String.index]. now rewrite prefix_refl.
Qed.

Lemma startsWith_refl s : startsWith s s = true.
Proof. apply prefix_refl. Qed.

Lemma similarity_refl s :
  s <> "" -> exists q, similarity s s = Ok (Num q) /\ (q == 1)%Q.
Proof.
  intros Hs. destruct (similarity_ratio s s) as (d & Hd & _ & ->).
  rewrite levenshteinDistance_table, levCell_diag in Hd. injection Hd as <-.
  rewrite Nat.max_id.
  assert (0 < String.length s) as P by (destruct s; [congruence | cbn; lia]).
  destruct (String.length s) as [|n] eqn:E; [lia|]. cbn [Nat.eqb].
  eexists. split; [reflexivity|].
  pose proof (inject_nat_pos (S n) P) as Pq. cbn [Z.of_nat inject_Z] in *.
  field. clear - Pq. lra.
Qed.

Lemma wordBody_wordMatch titleWord queryWord best :
  wordMatch best -> exists best', wordBody titleWord queryWord best = Ok best' /\ wordMatch best'.
Proof.
  intros (qb & -> & Hb). unfold wordBody.
  destruct (similarity_cases titleWord queryWord) as [(_ & _ & ->)|(q & -> & Hq)]; cbn [bind].
  - exists (Num qb). split; [reflexivity|]. exists qb. auto.
  - destruct (gt (Num q) (Num (6 # 10))) eqn:G.
    + eexists. split; [reflexivity|]. cbn [mul max].
      destruct (gt (Num qb) (Num (q * 60))); eexists; split; try reflexivity; lra.
    + exists (Num qb). split; [reflexivity|]. exists qb. auto.
Qed.

Lemma wordLoop_wordMatch titleWords queryWords :
  exists best,
    forM titleWords
      (fun titleWord bestWordMatch => forM queryWords (wordBody titleWord) bestWordMatch)
      (Num 0) = Ok best /\ wordMatch best.
Proof.
  apply (forM_invariant wordMatch).
  - intros titleWord s Hs. apply (forM_invariant wordMatch); [|exact Hs].
    intros queryWord s0 Hs0. now apply wordBody_wordMatch.
  - exists 0%Q. split; [reflexivity | lra].
Qed.

Lemma calculateFuzzyScore_unit text query :
  query <> "" -> exists q, calculateFuzzyScore text query = Num q /\ (0 <= q <= 1)%Q.
Proof.
  intros Hq. rewrite calculateFuzzyScore_scanFrom.
  assert (0 < String.length query) as P by (destruct query; [congruence | cbn; lia]).
  unfold ofNat at 1. rewrite div_ofNat by exact P.
  eexists. split; [reflexivity|].
  pose proof (scanFrom_le text (units query) 0 0) as L.
  rewrite length_units in L. cbn [Nat.add] in L.
  pose proof (inject_nat_pos _ P) as Pq.
  split.
  - apply Qdiv_nonneg; [apply inject_nat_nonneg | exact Pq].
  - apply Qdiv_le_1; [now apply inject_nat_le | exact Pq].
Qed.

(** The text part of the score, before the popularity boost. *)
Lemma score_text_bounds movie t query :
  title movie = Some t -> query <> "" ->
  exists text,
    (0 <= text <= 400)%Q /\
    (toLowerCase t = toLowerCase query -> (310 <= text)%Q) /\
    (toLowerCase t <> toLowerCase query -> (text <= 300)%Q) /\
    calculateRelevanceScore movie query = Ok (popularityBoost movie (Num text)).
Proof.
  intros Ht Hq. unfold calculateRelevanceScore, popularityBoost. rewrite Ht. cbv zeta.
  set (queryLower := toLowerCase query). set (titleLower := toLowerCase t).
  assert (HqL : queryLower <> "") by now apply toLowerCase_nonempty.
  change (add (Num 0) (Num 100)) with (add (Num 0%Q) (Num 100%Q)).
  destruct (bonus_exact (titleLower =? queryLower)%string 0 100) as (q1 & -> & E1).
  destruct (bonus_exact (includes titleLower queryLower) q1 80) as (q2 & -> & E2).
  destruct (bonus_exact (startsWith titleLower queryLower) q2 70) as (q3 & -> & E3).
  destruct (bonus_exact (includes (toLowerCase (orEmpty (overview movie))) queryLower) q3 30)
    as (q4 & -> & E4).
  destruct (wordLoop_wordMatch (split " " titleLower) (split " " queryLower))
    as (best & -> & qb & -> & Hb).
  cbn [bind].
  destruct (calculateFuzzyScore_unit titleLower queryLower HqL) as (qf & Hf & Hf1).
  destruct (String.eqb_spec titleLower queryLower) as [E|N].
  - rewrite E in *. rewrite includes_refl in E2. rewrite startsWith_refl in E3.
    destruct (similarity_refl queryLower HqL) as (qs & -> & Hs). cbn [bind].
    destruct (calculateFuzzyScore_Subsequence queryLower queryLower HqL (Subsequence_refl _))
      as (qf' & -> & Hf').
    assert (G : gt (Num qs) (Num (1 # 2)) = true) by (apply gt_Num; lra).
    rewrite G.
    destruct (includes (toLowerCase (orEmpty (overview movie))) queryLower);
      eexists; (split; [|split; [|split; [|reflexivity]]]); try (intros; congruence);
      try (intros _); lra.
  - destruct (similarity_nonempty titleLower queryLower) as (qs & -> & Hs).
    { destruct queryLower; [congruence|]. cbn [String.length]. lia. }
    cbn [bind]. rewrite Hf.
    destruct (includes titleLower queryLower), (startsWith titleLower queryLower),
      (includes (toLowerCase (orEmpty (overview movie))) queryLower),
      (gt (Num qs) (Num (1 # 2)));
      eexists; (split; [|split; [|split; [|reflexivity]]]); try (intros; congruence);
      try (intros _); lra.
Qed.

Lemma gt_Num_false x y : gt (Num x) (Num y) = false -> (x <= y)%Q.
Proof. unfold gt. rewrite negb_false_iff. apply Qle_bool_iff. Qed.

Lemma popularityBoost_value movie text :
  exists boost,
    popularityBoost movie (Num text)
    = Num (text + match vote_average movie with Some v => v | None => 0 end * 1 + boost)
    /\ (boost <= 5)%Q
    /\ (match vote_count movie with Some c => (0 <= c)%Q | None => True end -> (0 <= boost)%Q).
Proof.
  unfold popularityBoost.
  assert (D : exists d, div (orZero (vote_count movie)) (Num 1000) = Num d /\
                        (match vote_count movie with Some c => (0 <= c)%Q | None => True end
                         -> (0 <= d)%Q)).
  { destruct (vote_count movie) as [c|]; cbn [orZero div];
      change ((1000 ?= 0)%Q) with Gt; eexists; (split; [reflexivity|]); intros H.
    - apply Qdiv_nonneg; lra.
    - apply Qdiv_nonneg; lra. }
  destruct D as (d & -> & Hd). cbn [min].
  destruct (gt (Num d) (Num 5)) eqn:G.
  - exists 5%Q. destruct (vote_average movie); cbn [orZero mul add];
      (split; [reflexivity|]); split; intros; lra.
  - apply gt_Num_false in G.
    exists d. destruct (vote_average movie); cbn [orZero mul add];
      (split; [reflexivity|]); split; try exact G; exact Hd.
Qed.

(** X7.  An exact title match (up to case, non-empty query, popularity
    not negative) collects the exact, contains and starts-with bonuses
    together with the full whole-title similarity and the full fuzzy
    score: its score is at least 310. *)
Theorem exact_title_match_collects_bonuses (movie : Movie) (t query : string) :
  title movie = Some t ->
  query <> "" ->
  toLowerCase t = toLowerCase query ->
  popularityNonNegative movie ->
  exists q, calculateRelevanceScore movie query = Ok (Num q) /\ (310 <= q)%Q.
Proof.
  intros Ht Hq E [Ha Hc].
  destruct (score_text_bounds movie t query Ht Hq) as (text & _ & H310 & _ & ->).
  destruct (popularityBoost_value movie text) as (boost & -> & _ & Hb).
  specialize (H310 E). specialize (Hb Hc).
  eexists. split; [reflexivity|].
  destruct (vote_average movie); lra.
Qed.

Lemma exact_title_match_collects_bonuses_witness :
  exists q,
    calculateRelevanceScore (sampleMovie 1 "Iron Man") "IRON MAN" = Ok (Num q)
    /\ (310 <= q)%Q.
Proof.
  apply (exact_title_match_collects_bonuses _ "Iron Man").
  - reflexivity.
  - discriminate.
  - reflexivity.
  - split; cbn; lra.
Defined.

(** X8.  For a non-empty query and an item with a title, a rating
    between 0 and 10 and a vote count that is not negative, the score is
    a number between 0 and 416: the text bonuses add up to at most 400,
    the rating adds at most 10 and the vote count at most 5, however
    large it is.  The sums are 415 at most in exact arithmetic; the
    bound leaves room for their rounding. *)
Theorem calculateRelevanceScore_range (movie : Movie) (t query : string) :
  title movie = Some t ->
  query <> "" ->
  popularityNonNegative movie ->
  match vote_average movie with Some v => (v <= 10)%Q | None => True end ->
  exists q,
    calculateRelevanceScore movie query = Ok (Num q) /\ (0 <= q <= 416)%Q.
Proof.
  intros Ht Hq [Ha Hc] H10.
  destruct (score_text_bounds movie t query Ht Hq) as (text & Htext & _ & _ & ->).
  destruct (popularityBoost_value movie text) as (boost & -> & Hb5 & Hb).
  specialize (Hb Hc). eexists. split; [reflexivity|].
  destruct (vote_average movie); lra.
Qed.

Lemma calculateRelevanceScore_range_witness :
  exists q,
    calculateRelevanceScore (sampleMovie 2 "Iron") "ironman" = Ok (Num q) /\
    (0 <= q <= 416)%Q.
Proof.
  apply (calculateRelevanceScore_range (sampleMovie 2 "Iron") "Iron" "ironman").
  - reflexivity.
  - discriminate.
  - split; cbn; lra.
  - cbn. lra.
Defined.



(** ** The alias table and the size of the variations *)

(** *** [preprocessSearchTerm] *)

Lemma lowerUnit_noUpper c : isUpperUnit (N_of_ascii (lowerUnit c)) = false.
Proof. destruct c as [[] [] [] [] [] [] [] []]; reflexivity. Qed.

Lemma noUpper_toLowerCase s : noUpper (toLowerCase s) = true.
Proof.
  induction s as [|c s IH]; [reflexivity|].
  cbn [toLowerCase noUpper]. now rewrite lowerUnit_noUpper, IH.
Qed.

Lemma noUpper_trimStart s : noUpper s = true -> noUpper (trimStart s) = true.
Proof.
  induction s as [|c s IH]; [reflexivity|].
  cbn [trimStart]. destruct (isWhiteSpace c); [|trivial].
  cbn [noUpper]. intros H. apply andb_true_iff in H as [_ H]. now apply IH.
Qed.

Lemma noUpper_trimEnd s : noUpper s = true -> noUpper (trimEnd s) = true.
Proof.
  induction s as [|c s IH]; [reflexivity|].
  cbn [noUpper]. intros H. apply andb_true_iff in H as [Hc H]. specialize (IH H).
  cbn [trimEnd]. destruct (trimEnd s) as [|c' t].
  - destruct (isWhiteSpace c); [reflexivity|]. cbn [noUpper]. now rewrite Hc.
  - cbn [noUpper] in *. now rewrite Hc, IH.
Qed.

Lemma noUpper_key term : noUpper (trim (toLowerCase term)) = true.
Proof. apply noUpper_trimEnd, noUpper_trimStart, noUpper_toLowerCase. Qed.

Lemma inherited_lower_key key :
  noUpper key = true -> existsb (String.eqb key) objectPrototypeKeys = true ->
  key = "constructor" \/ key = "__proto__".
Proof.
  intros Hlow H. apply existsb_exists in H as (k & Hin & E).
  apply String.eqb_eq in E. subst k.
  cbn [objectPrototypeKeys In] in Hin.
  repeat (destruct Hin as [<-|Hin]; [try (now left); try (now right); discriminate Hlow|]).
  destruct Hin.
Qed.

(** X10.  The alias lookup yields a value that is not a string exactly
    for the terms whose trimmed lower-case form is [constructor] or
    [__proto__], the two lower-case names that the alias table inherits
    as an object literal. *)
Theorem preprocessSearchTerm_inherited_keys (term : string) :
  (exists name, preprocessSearchTerm term = VObject name) <->
  trim (toLowerCase term) = "constructor" \/ trim (toLowerCase term) = "__proto__".
Proof.
  unfold preprocessSearchTerm. split.
  - intros (name & H). apply inherited_lower_key; [apply noUpper_key|].
    unfold getProperty in H.
    destruct (find _ corrections) as [[k [|c v]]|]; try discriminate.
    destruct (existsb _ objectPrototypeKeys); [reflexivity | discriminate].
  - intros [-> | ->]; eexists; reflexivity.
Qed.

(** X11.  On such a query the search fails before any request is
    issued: the handler logs a TypeError and sets the error text, and
    the list on display, the requests and the counter are left as they
    were. *)
Theorem inherited_key_fails_search (w : World) (query : string) (s : State) :
  trim (toLowerCase query) = "constructor" \/ trim (toLowerCase query) = "__proto__" ->
  fetchMovies w query s
  = mkState (movieList s) errorText false (dispatched s) (recorded s)
            (logged s ++ [TypeError]).
Proof.
  intros H.
  assert (exists name, preprocessSearchTerm query = VObject name) as (name & Hname).
  { unfold preprocessSearchTerm. destruct H as [-> | ->]; eexists; reflexivity. }
  assert (Hq : query <> "") by (intros ->; discriminate Hname).
  rewrite (fetchMovies_search w query s Hq).
  rewrite (searchResults_object w query name _ Hname). reflexivity.
Qed.

Lemma inherited_key_fails_search_witness :
  fetchMovies catalogWorld "  Constructor " (showing samplePage)
  = mkState samplePage errorText false [] [] [TypeError].
Proof.
  apply (inherited_key_fails_search catalogWorld "  Constructor " (showing samplePage)).
  left. reflexivity.
Defined.

Lemma corrections_values v :
  In v (map snd corrections) -> preprocessSearchTerm v = VString v.
Proof.
  cbn [corrections map snd In].
  intros H. repeat (destruct H as [<-|H]; [reflexivity|]). destruct H.
Qed.

(** X12.  [preprocessSearchTerm] is idempotent: a term it returns is
    returned unchanged when processed again. *)
Theorem preprocessSearchTerm_idempotent (term p : string) :
  preprocessSearchTerm term = VString p -> preprocessSearchTerm p = VString p.
Proof.
  unfold preprocessSearchTerm at 1. unfold getProperty.
  destruct (find _ corrections) as [[k v]|] eqn:E.
  - apply find_some in E as [Hin _]. cbn [snd].
    assert (Hv : In v (map snd corrections)) by (apply in_map_iff; now exists (k, v)).
    destruct v as [|c v].
    + exfalso. revert Hv. cbn. intuition discriminate.
    + intros [= <-]. now apply corrections_values.
  - destruct (existsb _ objectPrototypeKeys) eqn:X; [discriminate|].
    intros [= <-]. unfold preprocessSearchTerm, getProperty. now rewrite E, X.
Qed.

Lemma preprocessSearchTerm_idempotent_witness :
  preprocessSearchTerm "spider-man" = VString "spider-man".
Proof.
  apply (preprocessSearchTerm_idempotent " SpiderMan "). reflexivity.
Defined.

(** *** The size of the variations *)

Lemma length_substring s : forall n m,
  String.length (String.substring n m s) = Nat.min m (String.length s - n).
Proof.
  induction s as [|c s IH]; intros n m.
  - destruct n, m; reflexivity.
  - destruct n as [|n].
    + destruct m as [|m]; [reflexivity|]. cbn [String.substring String.length].
      rewrite IH. lia.
    + cbn [String.substring String.length]. rewrite IH. reflexivity.
Qed.

Lemma length_replaceAt lowerTerm i substitute :
  i < String.length lowerTerm ->
  String.length (replaceAt lowerTerm i substitute)
  = String.length lowerTerm - 1 + String.length substitute.
Proof.
  intros Hi. unfold replaceAt, substring, substringFrom.
  rewrite !length_append, !length_substring. lia.
Qed.

(** An entry of the table offers one or two substitutes, each of one
    or two characters. *)
Lemma applicableTo_unit_key c :
  (List.length (applicableTo (String c "")) <=? 2) = true /\
  forallb (fun sub => (1 <=? String.length sub) && (String.length sub <=? 2))
          (applicableTo (String c "")) = true.
Proof. destruct c as [[] [] [] [] [] [] [] []]; split; reflexivity. Qed.

Lemma applicableTo_charAt lowerTerm i :
  List.length (applicableTo (charAt lowerTerm i)) <= 2 /\
  forall sub, In sub (applicableTo (charAt lowerTerm i)) ->
              1 <= String.length sub <= 2.
Proof.
  unfold charAt. destruct (String.get i lowerTerm) as [c|].
  - destruct (applicableTo_unit_key c) as [L F]. split; [now apply Nat.leb_le|].
    intros sub Hin. rewrite forallb_forall in F. specialize (F sub Hin).
    apply andb_true_iff in F as [F1 F2]. apply Nat.leb_le in F1, F2. lia.
  - split; [cbn; lia | intros sub []].
Qed.

Lemma length_candidates_from lowerTerm positions :
  List.length (flat_map (candidatesAt lowerTerm) positions) <= 2 * List.length positions.
Proof.
  induction positions as [|i positions IH]; [cbn; lia|].
  cbn [flat_map List.length]. rewrite length_app. unfold candidatesAt at 1.
  rewrite length_map. pose proof (applicableTo_charAt lowerTerm i) as [L _]. lia.
Qed.

Lemma candidates_length lowerTerm v :
  In v (candidates lowerTerm) ->
  String.length lowerTerm <= String.length v <= String.length lowerTerm + 1.
Proof.
  unfold candidates. intros H. apply in_flat_map in H as (i & Hi & Hv).
  apply in_seq in Hi. unfold candidatesAt in Hv.
  apply in_map_iff in Hv as (sub & <- & Hsub).
  apply (applicableTo_charAt lowerTerm i) in Hsub.
  rewrite length_replaceAt by lia. lia.
Qed.

Lemma length_appendNew produced cs :
  List.length (appendNew produced cs) <= List.length produced + List.length cs.
Proof.
  revert produced. induction cs as [|c cs IH]; intros produced; cbn [appendNew List.length];
    [lia|].
  destruct (existsb (String.eqb c) produced).
  - specialize (IH produced). lia.
  - specialize (IH (produced ++ [c])). rewrite length_app in IH. cbn in IH. lia.
Qed.

Lemma appendNew_Forall (P : string -> Prop) produced cs :
  Forall P produced -> Forall P cs -> Forall P (appendNew produced cs).
Proof.
  revert produced. induction cs as [|c cs IH]; intros produced Hp Hcs; cbn [appendNew];
    [exact Hp|].
  apply Forall_cons_iff in Hcs as [Hc Hcs].
  destruct (existsb (String.eqb c) produced); apply IH; try assumption.
  apply Forall_app. split; [exact Hp | now constructor].
Qed.

(** X13.  With [lowerTerm] the lower-cased term,
    [generateSearchVariations] returns at most one variation more than
    twice the length of [lowerTerm]; the first is the term itself, and
    every other one has the length of [lowerTerm] or one code unit
    more. *)
Theorem generateSearchVariations_size (term : string) :
  exists variations,
    generateSearchVariations (VString term) = Ok variations /\
    List.length variations <= 1 + 2 * String.length (toLowerCase term) /\
    Forall (fun v =>
              v = term \/
              String.length (toLowerCase term) <= String.length v
              <= String.length (toLowerCase term) + 1)
           variations.
Proof.
  exists (specVariations term). split; [apply generateSearchVariations_spec|].
  unfold specVariations. cbv zeta. split.
  - pose proof (length_appendNew [term]
                  (filter (differsFrom (toLowerCase term)) (candidates (toLowerCase term)))) as L.
    pose proof (filter_length_le (differsFrom (toLowerCase term)) (candidates (toLowerCase term))) as F.
    pose proof (length_candidates_from (toLowerCase term)
                  (seq 0 (String.length (toLowerCase term)))) as C.
    fold (candidates (toLowerCase term)) in C.
    rewrite length_seq in C. cbn [List.length] in L. lia.
  - apply appendNew_Forall; [repeat constructor; now left|].
    apply Forall_forall. intros v Hv. apply filter_In in Hv as [Hv _].
    apply candidates_length in Hv. now right.
Qed.

(** ** More on the pipeline *)

(** *** The empty query *)

(** X14.  The empty query issues exactly the one discover request and
    never calls the counter.  When the request is fulfilled with a
    success status and a parsable body, the page is stored as it comes
    (not ranked, not deduplicated, not cut to 20; the empty list when
    the body has no results) and no error is set; otherwise the list on
    display stays, the failure is logged and the error text is set. *)
Theorem empty_query_discovers (w : World) (s : State) :
  fetchMovies w "" s =
  match fetch w 0 DiscoverMovie with
  | Fulfilled true (Parsed results) =>
      mkState (match results with Some page => page | None => [] end) "" false
              (dispatched s ++ [DiscoverMovie]) (recorded s) (logged s)
  | outcome =>
      mkState (movieList s) errorText false
              (dispatched s ++ [DiscoverMovie]) (recorded s)
              (logged s ++ [discoverFailure outcome])
  end.
Proof.
  unfold fetchMovies, tryCatchFinally, discoverBranch, bindM, fetchAll, settle, lift.
  cbn [List.length seq combine map fst snd awaitAll].
  destruct (fetch w 0 DiscoverMovie) as [|[] [|results]]; reflexivity.
Qed.

(** *** What every call leaves behind *)

(** The cases of the one request of the empty query. *)
Ltac discover_cases w :=
  unfold fetchMovies, tryCatchFinally, discoverBranch, bindM, fetchAll, settle, lift;
  cbn [List.length seq combine map fst snd awaitAll];
  destruct (fetch w 0 DiscoverMovie) as [|[] [|?]].

Lemma fetchMovies_search_cases w query s :
  query <> "" ->
  (exists e reqs,
      fetchMovies w query s
      = mkState (movieList s) errorText false (dispatched s ++ reqs) (recorded s)
                (logged s ++ [e])) \/
  (exists reqs,
      fetchMovies w query s
      = mkState [] "" false (dispatched s ++ reqs) (recorded s) (logged s)) \/
  (exists top rest reqs,
      fetchMovies w query s
      = mkState (top :: rest) "" false (dispatched s ++ reqs)
                (recorded s ++ [(query, top)]) (logged s)) \/
  (exists top rest reqs,
      fetchMovies w query s
      = mkState (top :: rest) errorText false (dispatched s ++ reqs)
                (recorded s ++ [(query, top)]) (logged s ++ [CounterError])).
Proof.
  intros Hq. rewrite (fetchMovies_search w query s Hq).
  destruct (preprocessSearchTerm query) as [p|name] eqn:Hp.
  - rewrite (searchResults_string w query p _ Hp).
    destruct (rankedOf w query p) as [[|top rest]|e].
    + right. left. exists (batchOf p). reflexivity.
    + destruct (updateSearchCount w query top).
      * right. right. left. exists top, rest, (batchOf p). reflexivity.
      * right. right. right. exists top, rest, (batchOf p). reflexivity.
    + left. exists e, (batchOf p). reflexivity.
  - rewrite (searchResults_object w query name _ Hp).
    left. exists TypeError, []. cbn. now rewrite app_nil_r.
Qed.

(** X15.  Every call of [fetchMovies] ends with the loading flag off,
    and either with the error text cleared and nothing logged, or with
    the error text set and exactly one error logged. *)
Theorem fetchMovies_settles (w : World) (query : string) (s : State) :
  isLoading (fetchMovies w query s) = false /\
  ((errorMessage (fetchMovies w query s) = "" /\
    logged (fetchMovies w query s) = logged s) \/
   (errorMessage (fetchMovies w query s) = errorText /\
    exists e, logged (fetchMovies w query s) = logged s ++ [e])).
Proof.
  destruct query as [|c query].
  - discover_cases w; cbn; eauto.
  - destruct (fetchMovies_search_cases w (String c query) s ltac:(discriminate))
      as [(e & reqs & ->)|[(reqs & ->)|[(top & rest & reqs & ->)|(top & rest & reqs & ->)]]];
      cbn; eauto.
Qed.

(** X16.  A call of [fetchMovies] calls the counter at most once, and
    when it does, with the raw query and the first item of the list it
    stored. *)
Theorem counter_called_at_most_once (w : World) (query : string) (s : State) :
  recorded (fetchMovies w query s) = recorded s \/
  exists top rest,
    movieList (fetchMovies w query s) = top :: rest /\
    recorded (fetchMovies w query s) = recorded s ++ [(query, top)].
Proof.
  destruct query as [|c query].
  - left. discover_cases w; reflexivity.
  - destruct (fetchMovies_search_cases w (String c query) s ltac:(discriminate))
      as [(e & reqs & ->)|[(reqs & ->)|[(top & rest & reqs & ->)|(top & rest & reqs & ->)]]];
      cbn; eauto.
Qed.

(** *** The merge *)

Lemma collectResults_from responses : forall allResults,
  forM responses
    (fun (response : bool * Body) (allResults : list Movie) =>
       if fst response then
         data <- json (snd response) ;;
         match data with
         | Some results => Ok (allResults ++ results)
         | None => Ok allResults
         end
       else Ok allResults)
    allResults
  = if existsb unparsableSuccess responses then Throw SyntaxError
    else Ok (allResults ++ flat_map pageOf responses).
Proof.
  induction responses as [|[ok body] responses IH]; intros allResults.
  - cbn. now rewrite app_nil_r.
  - cbn [forM fst snd existsb flat_map unparsableSuccess pageOf].
    destruct ok; [|cbn [bind orb app]; apply IH].
    destruct body as [|[results|]]; cbn [json bind orb]; [reflexivity| |].
    + rewrite IH. destruct (existsb unparsableSuccess responses); [reflexivity|].
      now rewrite app_assoc.
    + apply IH.
Qed.

(** X19.  The merge concatenates, in the order of the batch, the
    results of the responses with a success status; a response with a
    non-success status or without results contributes nothing, and a
    success whose body cannot be parsed makes the search throw. *)
Theorem collectResults_merges_in_order (responses : list (bool * Body)) :
  collectResults responses
  = if existsb unparsableSuccess responses then Throw SyntaxError
    else Ok (flat_map pageOf responses).
Proof. apply (collectResults_from responses []). Qed.

(** *** The ranked list *)

Lemma insert_Permutation {A} (cmp : A -> A -> jsnum) x l :
  Permutation (insert cmp x l) (x :: l).
Proof.
  induction l as [|y l IH]; cbn [insert]; [reflexivity|].
  destruct (gt (cmp x y) (Num 0)); [|reflexivity].
  rewrite IH. apply perm_swap.
Qed.

Lemma sort_Permutation {A} (cmp : A -> A -> jsnum) l : Permutation (sort cmp l) l.
Proof.
  induction l as [|x l IH]; cbn [sort fold_right]; [reflexivity|].
  rewrite insert_Permutation. now constructor.
Qed.

Lemma mapM_map {A B C} (f : A -> Result B) (g : A -> C) (h : B -> C) l l' :
  (forall x y, f x = Ok y -> h y = g x) -> mapM f l = Ok l' -> map h l' = map g l.
Proof.
  intros Hf. revert l'. induction l as [|x l IH]; intros l'; cbn [mapM].
  - intros [= <-]. reflexivity.
  - destruct (f x) as [y|e] eqn:E; cbn [bind]; [|discriminate].
    destruct (mapM f l) as [ys|e]; cbn [bind]; [|discriminate].
    intros [= <-]. cbn [map]. now rewrite (Hf x y E), (IH ys).
Qed.

Lemma scored_id query movie scored :
  (score <- calculateRelevanceScore movie query ;; Ok (withScore movie score)) = Ok scored ->
  id scored = id movie.
Proof.
  destruct (calculateRelevanceScore movie query); cbn [bind]; [|discriminate].
  intros [= <-]. reflexivity.
Qed.

(** What [rankResults] returns: the first 20 of the sorted scored
    copies. *)
Lemma rankResults_inv query unique l :
  rankResults query unique = Ok l ->
  exists scored,
    map id scored = map id unique /\
    (query <> "" -> Forall finiteScore scored) /\
    l = firstn 20 (sort byScoreDescending scored).
Proof.
  unfold rankResults.
  destruct (mapM _ unique) as [scored|e] eqn:E; cbn [bind]; [|discriminate].
  intros [= <-]. exists scored. split; [|split; [|reflexivity]].
  - eapply mapM_map; [|exact E]. intros x y. apply scored_id.
  - intros Hq. eapply mapM_Forall; [|exact E]. intros x y. now apply scored_finite.
Qed.

Lemma NoDup_firstn {A} n (l : list A) : NoDup l -> NoDup (firstn n l).
Proof.
  intros H. rewrite <- (firstn_skipn n l) in H. now apply NoDup_app_remove_r in H.
Qed.

Lemma rankResults_NoDup query unique l :
  NoDup (map id unique) -> rankResults query unique = Ok l -> NoDup (map id l).
Proof.
  intros Hu H. apply rankResults_inv in H as (scored & Hid & _ & ->).
  rewrite <- firstn_map. apply NoDup_firstn.
  rewrite <- Hid in Hu.
  eapply Permutation_NoDup; [|exact Hu].
  apply Permutation_map. symmetry. apply sort_Permutation.
Qed.

Lemma searchResults_ranked_unique w query s l s1 :
  searchResults w query s = (Ok l, s1) ->
  exists allResults, rankResults query (uniqueResults allResults) = Ok l.
Proof.
  destruct (preprocessSearchTerm query) as [p|name] eqn:Hp.
  - rewrite (searchResults_string w query p s Hp). unfold rankedOf.
    destruct (awaitAll _) as [responses|e]; cbn [bind]; [|discriminate].
    destruct (collectResults responses) as [allResults|e]; cbn [bind]; [|discriminate].
    intros [= H _]. eauto.
  - rewrite (searchResults_object w query name s Hp). discriminate.
Qed.

(** X20.  The list that a search delivers holds every identifier at
    most once. *)
Theorem delivered_ids_distinct (w : World) (query : string) (s : State) :
  query <> "" ->
  movieList (fetchMovies w query s) = movieList s \/
  NoDup (map id (movieList (fetchMovies w query s))).
Proof.
  intros Hq. rewrite (fetchMovies_search w query s Hq).
  destruct (searchResults w query (entered s)) as [[sorted|e] s1] eqn:E.
  - right. destruct (searchResults_ranked_unique _ _ _ _ _ E) as (allResults & R).
    apply rankResults_NoDup in R;
      [|rewrite uniqueResults_dedup; apply dedupById_NoDup].
    destruct sorted as [|top rest]; [constructor|].
    destruct (updateSearchCount w query top); exact R.
  - left. apply searchResults_frame in E as (E1 & _). cbn. exact E1.
Qed.

Lemma delivered_ids_distinct_witness :
  movieList (fetchMovies catalogWorld "iron" idle) = movieList idle \/
  NoDup (map id (movieList (fetchMovies catalogWorld "iron" idle))).
Proof.
  apply (delivered_ids_distinct catalogWorld "iron" idle). discriminate.
Defined.


Lemma In_skipn {A} n (l : list A) x : In x (skipn n l) -> In x l.
Proof.
  intros H. rewrite <- (firstn_skipn n l). apply in_or_app. now right.
Qed.




Lemma In_firstn {A} n (l : list A) x : In x (firstn n l) -> In x l.
Proof.
  intros H. rewrite <- (firstn_skipn n l). apply in_or_app. now left.
Qed.

Lemma calculateRelevanceScore_withScore movie v query :
  calculateRelevanceScore (withScore movie v) query = calculateRelevanceScore movie query.
Proof. reflexivity. Qed.

(** X22.  Every item that a search delivers carries, as its relevance
    score, the score that [calculateRelevanceScore] gives it for the raw
    query (not for the processed query). *)
Theorem delivered_items_carry_their_score (w : World) (query : string) (s : State) :
  query <> "" ->
  movieList (fetchMovies w query s) = movieList s \/
  Forall (fun movie =>
            exists v, relevanceScore movie = Some v /\
                      calculateRelevanceScore movie query = Ok v)
         (movieList (fetchMovies w query s)).
Proof.
  intros Hq. rewrite (fetchMovies_search w query s Hq).
  destruct (searchResults w query (entered s)) as [[sorted|e] s1] eqn:E.
  - right. destruct (searchResults_ranked _ _ _ _ _ E) as (unique & R).
    assert (F : Forall (fun movie =>
                          exists v, relevanceScore movie = Some v /\
                                    calculateRelevanceScore movie query = Ok v) sorted).
    { unfold rankResults in R.
      destruct (mapM _ unique) as [scored|e] eqn:M; cbn [bind] in R; [|discriminate].
      injection R as <-. apply Forall_forall. intros x Hx. apply In_firstn in Hx.
      revert x Hx. apply Forall_forall. apply sort_Forall.
      eapply mapM_Forall; [|exact M]. intros raw y Hy. cbv beta in Hy.
      destruct (calculateRelevanceScore raw query) as [v|] eqn:V; cbn [bind] in Hy;
        [|discriminate].
      injection Hy as <-. exists v. split; [reflexivity|].
      now rewrite calculateRelevanceScore_withScore. }
    destruct sorted as [|top rest]; [constructor|].
    destruct (updateSearchCount w query top); exact F.
  - left. apply searchResults_frame in E as (E1 & _). cbn. exact E1.
Qed.

Lemma delivered_items_carry_their_score_witness :
  movieList (fetchMovies catalogWorld "ironman" idle) = movieList idle \/
  Forall (fun movie =>
            exists v, relevanceScore movie = Some v /\
                      calculateRelevanceScore movie "ironman" = Ok v)
         (movieList (fetchMovies catalogWorld "ironman" idle)).
Proof.
  apply (delivered_items_carry_their_score catalogWorld "ironman" idle). discriminate.
Defined.

Lemma dedupById_In seen l movie : In movie (dedupById seen l) -> In movie l.
Proof.
  revert seen. induction l as [|x l IH]; intros seen; cbn [dedupById]; [trivial|].
  destruct (existsb (Z.eqb (id x)) seen).
  - intros H. right. now apply (IH seen).
  - intros [<-|H]; [now left | right; now apply (IH (id x :: seen))].
Qed.

(** ** More on the similarity ratio *)

(** X24.  The similarity ratio does not depend on the order of its two
    strings. *)
Theorem similarity_symmetric (a b : string) : similarity a b = similarity b a.
Proof.
  unfold similarity. rewrite !levenshteinDistance_table. cbn [bind].
  now rewrite (levCell_sym a b), (Nat.max_comm (String.length a)).
Qed.

(** X25.  The similarity of a non-empty string to another string is 1
    exactly when the two strings are equal. *)
Theorem similarity_one_iff_equal (a b : string) :
  a <> "" ->
  ((exists q, similarity a b = Ok (Num q) /\ (q == 1)%Q) <-> a = b).
Proof.
  intros Ha. split.
  - intros (q & H & Hone).
    destruct (similarity_ratio a b) as (d & Hd & Hle & Hs).
    rewrite Hs in H.
    assert (0 < Nat.max (String.length a) (String.length b)) as P.
    { assert (0 < String.length a) by (destruct a; [congruence | cbn; lia]). lia. }
    destruct (Nat.max (String.length a) (String.length b)) as [|m] eqn:M; [lia|].
    cbn [Nat.eqb] in H. injection H as <-.
    pose proof (inject_nat_pos (S m) P) as Pq.
    assert (Z0 : (inject_Z (Z.of_nat d) == 0)%Q).
    { assert (E : ((inject_Z (Z.of_nat (S m)) - inject_Z (Z.of_nat d))
                   == inject_Z (Z.of_nat (S m)))%Q).
      { apply (Qmult_inj_r _ _ (/ inject_Z (Z.of_nat (S m)))).
        - intros I0. apply (Qinv_lt_0_compat _) in Pq. rewrite I0 in Pq.
          exact (Qlt_irrefl 0 Pq).
        - unfold Qdiv in Hone. rewrite Hone. symmetry. apply Qmult_inv_r.
          clear - Pq. lra. }
      clear - E. lra. }
    change 0%Q with (inject_Z 0) in Z0.
    apply (proj1 (inject_Z_injective _ _)) in Z0.
    assert (d = 0) by lia. subst d.
    rewrite levenshteinDistance_table in Hd. injection Hd as Hd.
    apply levCell_zero in Hd as [Hlen Hk].
    apply string_ext; [congruence|]. intros k Hlt. apply Hk. lia.
  - intros <-. now apply similarity_refl.
Qed.

Lemma similarity_one_iff_equal_witness :
  (exists q, similarity "iron" "iron" = Ok (Num q) /\ (q == 1)%Q) <-> "iron" = "iron".
Proof.
  apply (similarity_one_iff_equal "iron" "iron"). discriminate.
Defined.

(** ** The request batch on strings of any code units *)

Lemma prototype_keys_long key :
  List.length key <= 1 -> existsb (Wide.eqb key) (map Wide.js objectPrototypeKeys) = false.
Proof.
  intros H. destruct key as [|c [|d key]]; [reflexivity| |cbn in H; lia].
  cbn. rewrite !andb_false_r. reflexivity.
Qed.

Lemma charAt_short s i : List.length (Wide.charAt s i) <= 1.
Proof. unfold Wide.charAt. destruct (nth_error s i); cbn; lia. Qed.

Lemma forM_returns {A S : Type} (l : list A) (body : A -> S -> Result S) s :
  (forall x s, exists s', body x s = Ok s') -> exists s', forM l body s = Ok s'.
Proof.
  intros H. revert s. induction l as [|x l IH]; intros s; [now exists s|].
  cbn [forM]. destruct (H x s) as (s1 & ->). cbn [bind]. apply IH.
Qed.

Lemma dispatch_dispatch a b s :
  Wide.dispatch b (Wide.dispatch a s) = Wide.dispatch (a ++ b) s.
Proof. unfold Wide.dispatch. cbn. now rewrite app_assoc. Qed.

Lemma encodablePrefix_all texts :
  forallb Wide.wellFormed texts = true -> Wide.encodablePrefix texts = texts.
Proof.
  induction texts as [|t texts IH]; [reflexivity|]. cbn.
  intros H. apply andb_true_iff in H as [-> H]. now rewrite IH.
Qed.

Lemma encodable_forallb texts :
  Forall Wide.encodable texts <-> forallb Wide.wellFormed texts = true.
Proof. rewrite forallb_forall, Forall_forall. reflexivity. Qed.

Lemma encodablePrefix_firstn texts :
  exists n, Wide.encodablePrefix texts = firstn n texts.
Proof.
  induction texts as [|t texts (n & IH)]; [now exists 0|]. cbn.
  destruct (Wide.wellFormed t); [exists (S n); cbn; now rewrite IH | now exists 0].
Qed.

(** The evaluation of the array literal: the requests of the texts
    before the first one that cannot be encoded are issued; the promises
    are there when every text could be encoded. *)
Lemma searchPromises_run w k texts s :
  Wide.searchPromises w k texts s
  = (if forallb Wide.wellFormed texts then Ok (Wide.settle w k texts) else Throw URIError,
     Wide.dispatch (map Wide.SearchMovie (Wide.encodablePrefix texts)) s).
Proof.
  revert k s. induction texts as [|t texts IH]; intros k s.
  - cbn. unfold Wide.ret, Wide.dispatch. destruct s; cbn. now rewrite app_nil_r.
  - cbn [Wide.searchPromises forallb Wide.encodablePrefix].
    unfold Wide.bindM, Wide.lift, Wide.encodeURIComponent.
    destruct (Wide.wellFormed t); cbn [andb].
    + rewrite IH, dispatch_dispatch. cbn [map app].
      destruct (forallb Wide.wellFormed texts); reflexivity.
    + cbn. unfold Wide.dispatch. destruct s; cbn. now rewrite app_nil_r.
Qed.

Lemma searchQueries_length p vars :
  List.length (Wide.searchQueries p vars)
  = 2 + List.length (slice vars 1 4)
    + (if Wide.includes p [Wide.space] then List.length (Wide.split Wide.space p) else 0).
Proof.
  unfold Wide.searchQueries. cbn [app List.length]. rewrite !length_app. cbn [List.length].
  destruct (Wide.includes p [Wide.space]); cbn [List.length]; lia.
Qed.

Lemma slice_1_4_length {A} (l : list A) : List.length (slice l 1 4) <= 3.
Proof. unfold slice. apply firstn_le_length. Qed.

Section WideBatch.
Variable toLowerCase : Wide.jsstring -> Wide.jsstring.
Variable scorer : Movie -> Wide.jsstring -> Result jsnum.

(** On a string [generateSearchVariations] returns: the keys that the
    table of substitutions inherits are longer than one code unit. *)
Lemma generateSearchVariations_returns term :
  Wide.generateSearchVariations toLowerCase (Wide.VString term)
  = Ok (Wide.variationsOf toLowerCase term).
Proof.
  unfold Wide.variationsOf.
  destruct (Wide.generateSearchVariations toLowerCase (Wide.VString term)) as [v|e] eqn:E;
    [reflexivity|].
  exfalso. revert E. unfold Wide.generateSearchVariations.
  match goal with |- forM ?l ?body ?s = _ -> _ =>
    destruct (forM_returns l body s) as (v & ->); [|discriminate] end.
  intros i variations. unfold Wide.getProperty.
  destruct (find _ Wide.substitutions) as [kv|].
  - apply forM_returns. intros x s. unfold Wide.pushVariation.
    destruct (_ && _); eauto.
  - rewrite prototype_keys_long by apply charAt_short. eauto.
Qed.

(** The ranked list that the responses of a batch lead to. *)
Local Abbreviation rankedOf w query texts :=
  (responses <- awaitAll (Wide.settle w 0 texts) ;;
   allResults <- collectResults responses ;;
   Wide.rankResults scorer query (uniqueResults allResults)).

Lemma wide_searchResults_string w query p s :
  Wide.preprocessSearchTerm toLowerCase query = Wide.VString p ->
  Wide.searchResults toLowerCase scorer w query s
  = (if forallb Wide.wellFormed (Wide.batchOf toLowerCase p)
     then rankedOf w query (Wide.batchOf toLowerCase p)
     else Throw URIError,
     Wide.dispatch (map Wide.SearchMovie (Wide.encodablePrefix (Wide.batchOf toLowerCase p))) s).
Proof.
  intros Hp. unfold Wide.searchResults. rewrite Hp, generateSearchVariations_returns.
  unfold Wide.bindM at 1. unfold Wide.lift at 1.
  unfold Wide.bindM at 1. fold (Wide.batchOf toLowerCase p).
  rewrite searchPromises_run.
  destruct (forallb Wide.wellFormed (Wide.batchOf toLowerCase p)); [|reflexivity].
  unfold Wide.bindM, Wide.lift.
  destruct (awaitAll _) as [responses|e]; cbn [bind]; [|reflexivity].
  destruct (collectResults responses) as [allResults|e]; cbn [bind]; reflexivity.
Qed.

Lemma wide_fetchMovies_search w query s :
  query <> [] ->
  Wide.fetchMovies toLowerCase scorer w query s =
  match Wide.searchResults toLowerCase scorer w query (Wide.entered s) with
  | (Throw e, s1) => Wide.failed e s1
  | (Ok [], s1) => Wide.setIsLoading false (Wide.setMovieList [] s1)
  | (Ok (top :: rest), s1) =>
      match Wide.updateSearchCount w query top with
      | CountResolved =>
          Wide.setIsLoading false (Wide.record query top (Wide.setMovieList (top :: rest) s1))
      | CountRejected =>
          Wide.failed CounterError (Wide.record query top (Wide.setMovieList (top :: rest) s1))
      end
  end.
Proof.
  intros Hq. unfold Wide.fetchMovies, Wide.tryCatchFinally. fold (Wide.entered s).
  destruct query as [|c query]; [congruence|].
  unfold Wide.searchBranch, Wide.bindM.
  destruct (Wide.searchResults toLowerCase scorer w (c :: query) (Wide.entered s))
    as [[sorted|e] s1]; [|reflexivity].
  unfold Wide.effect. destruct sorted as [|top rest]; [reflexivity|].
  unfold Wide.awaitCount. destruct (Wide.updateSearchCount w (c :: query) top); reflexivity.
Qed.

Lemma wide_fetchMovies_string w query p s :
  query <> [] ->
  Wide.preprocessSearchTerm toLowerCase query = Wide.VString p ->
  Wide.fetchMovies toLowerCase scorer w query s =
  let s1 := Wide.dispatch
              (map Wide.SearchMovie (Wide.encodablePrefix (Wide.batchOf toLowerCase p)))
              (Wide.entered s) in
  if forallb Wide.wellFormed (Wide.batchOf toLowerCase p) then
    match rankedOf w query (Wide.batchOf toLowerCase p) with
    | Throw e => Wide.failed e s1
    | Ok [] => Wide.setIsLoading false (Wide.setMovieList [] s1)
    | Ok (top :: rest) =>
        match Wide.updateSearchCount w query top with
        | CountResolved =>
            Wide.setIsLoading false (Wide.record query top (Wide.setMovieList (top :: rest) s1))
        | CountRejected =>
            Wide.failed CounterError (Wide.record query top (Wide.setMovieList (top :: rest) s1))
        end
    end
  else Wide.failed URIError s1.
Proof.
  intros Hq Hp. rewrite (wide_fetchMovies_search w query s Hq).
  rewrite (wide_searchResults_string w query p _ Hp).
  destruct (forallb Wide.wellFormed (Wide.batchOf toLowerCase p)); reflexivity.
Qed.

(** X26.  The requests that a search issues are those of the texts of
    the batch before the first text that cannot be encoded: all of them
    when every text can be encoded. *)
Theorem issued_requests (w : Wide.World) (query p : Wide.jsstring) (s : Wide.State) :
  query <> [] ->
  Wide.preprocessSearchTerm toLowerCase query = Wide.VString p ->
  Wide.dispatched (Wide.fetchMovies toLowerCase scorer w query s)
  = Wide.dispatched s
    ++ map Wide.SearchMovie (Wide.encodablePrefix (Wide.batchOf toLowerCase p)).
Proof.
  intros Hq Hp. rewrite (wide_fetchMovies_string w query p s Hq Hp). cbv zeta.
  destruct (forallb Wide.wellFormed (Wide.batchOf toLowerCase p)); [|reflexivity].
  destruct (rankedOf w query (Wide.batchOf toLowerCase p)) as [[|top rest]|e];
    try reflexivity.
  destruct (Wide.updateSearchCount w query top); reflexivity.
Qed.

(** C6.  For a non-empty query whose processed form is a string and
    whose request texts can all be encoded, the requests issued are, in
    this order: the processed query; the variations at positions 1 to 3;
    when the processed query contains a space character, every piece of
    its split at single space characters, empty pieces included; and its
    first three code units. *)
Theorem dispatched_batch (w : Wide.World) (query p : Wide.jsstring) (s : Wide.State) :
  query <> [] ->
  Wide.preprocessSearchTerm toLowerCase query = Wide.VString p ->
  Forall Wide.encodable (Wide.batchOf toLowerCase p) ->
  Wide.generateSearchVariations toLowerCase (Wide.VString p)
  = Ok (Wide.variationsOf toLowerCase p) /\
  Wide.dispatched (Wide.fetchMovies toLowerCase scorer w query s)
  = Wide.dispatched s
    ++ map Wide.SearchMovie
         ([p]
          ++ slice (Wide.variationsOf toLowerCase p) 1 4
          ++ (if Wide.includes p [Wide.space] then Wide.split Wide.space p else [])
          ++ [Wide.substring p 0 3]).
Proof.
  intros Hq Hp He. split; [apply generateSearchVariations_returns|].
  rewrite (wide_fetchMovies_string w query p s Hq Hp). cbv zeta.
  apply encodable_forallb in He. rewrite He, (encodablePrefix_all _ He).
  destruct (rankedOf w query (Wide.batchOf toLowerCase p)) as [[|top rest]|e];
    try reflexivity.
  destruct (Wide.updateSearchCount w query top); reflexivity.
Qed.

(** C2.  For a non-empty query whose processed form is a string and
    whose request texts can all be encoded, when every request of the
    batch fails: if all of them are answered with a non-success status,
    the search ends with the empty list, no error text and nothing
    logged or counted; if one of them is rejected in transport, the
    awaited batch is rejected, the handler logs it and sets the error
    text, and the list on display is not replaced. *)
Theorem failed_batch_outcome (w : Wide.World) (query p : Wide.jsstring) (s : Wide.State) :
  query <> [] ->
  Wide.preprocessSearchTerm toLowerCase query = Wide.VString p ->
  Forall Wide.encodable (Wide.batchOf toLowerCase p) ->
  Forall failedRequest (Wide.settle w 0 (Wide.batchOf toLowerCase p)) ->
  Wide.fetchMovies toLowerCase scorer w query s
  = if existsb isRejected (Wide.settle w 0 (Wide.batchOf toLowerCase p))
    then Wide.mkState (Wide.movieList s) errorText false
           (Wide.dispatched s ++ map Wide.SearchMovie (Wide.batchOf toLowerCase p))
           (Wide.recorded s) (Wide.logged s ++ [NetworkError])
    else Wide.mkState [] "" false
           (Wide.dispatched s ++ map Wide.SearchMovie (Wide.batchOf toLowerCase p))
           (Wide.recorded s) (Wide.logged s).
Proof.
  intros Hq Hp He Hall. rewrite (wide_fetchMovies_string w query p s Hq Hp). cbv zeta.
  apply encodable_forallb in He. rewrite He, (encodablePrefix_all _ He).
  destruct (existsb isRejected (Wide.settle w 0 (Wide.batchOf toLowerCase p))) eqn:E.
  - apply existsb_exists in E as (o & Ho & Hr).
    destruct o; [|discriminate]. rewrite (awaitAll_rejected _ Ho). reflexivity.
  - destruct (awaitAll_fulfilled _ E Hall) as (responses & -> & F).
    cbn [bind]. rewrite (collectResults_unsuccessful responses F). reflexivity.
Qed.

(** X27.  A text that cannot be encoded ends the search in the handler:
    the requests of the texts before it have been issued, nothing is
    awaited, a URIError is logged, the error text is set, and the list
    on display and the counter are left as they were. *)
Theorem unencodable_text_fails_search (w : Wide.World) (query p : Wide.jsstring)
    (s : Wide.State) :
  query <> [] ->
  Wide.preprocessSearchTerm toLowerCase query = Wide.VString p ->
  ~ Forall Wide.encodable (Wide.batchOf toLowerCase p) ->
  Wide.fetchMovies toLowerCase scorer w query s
  = Wide.mkState (Wide.movieList s) errorText false
      (Wide.dispatched s
       ++ map Wide.SearchMovie (Wide.encodablePrefix (Wide.batchOf toLowerCase p)))
      (Wide.recorded s) (Wide.logged s ++ [URIError]).
Proof.
  intros Hq Hp He. rewrite (wide_fetchMovies_string w query p s Hq Hp). cbv zeta.
  rewrite encodable_forallb in He.
  destruct (forallb Wide.wellFormed (Wide.batchOf toLowerCase p)); [congruence|reflexivity].
Qed.

(** X18.  One request that is rejected, or one text that cannot be
    encoded, fails the search whatever the other requests bring: the
    error text is set, one error is logged, the list on display is not
    replaced and the counter is not called. *)
Theorem one_failure_discards_batch (w : Wide.World) (query p : Wide.jsstring)
    (s : Wide.State) :
  query <> [] ->
  Wide.preprocessSearchTerm toLowerCase query = Wide.VString p ->
  ~ Forall Wide.encodable (Wide.batchOf toLowerCase p)
  \/ In Rejected (Wide.settle w 0 (Wide.batchOf toLowerCase p)) ->
  Wide.movieList (Wide.fetchMovies toLowerCase scorer w query s) = Wide.movieList s /\
  Wide.errorMessage (Wide.fetchMovies toLowerCase scorer w query s) = errorText /\
  Wide.isLoading (Wide.fetchMovies toLowerCase scorer w query s) = false /\
  Wide.recorded (Wide.fetchMovies toLowerCase scorer w query s) = Wide.recorded s /\
  exists e, (e = URIError \/ e = NetworkError) /\
    Wide.logged (Wide.fetchMovies toLowerCase scorer w query s) = Wide.logged s ++ [e].
Proof.
  intros Hq Hp H. rewrite (wide_fetchMovies_string w query p s Hq Hp). cbv zeta.
  destruct (forallb Wide.wellFormed (Wide.batchOf toLowerCase p)) eqn:E.
  - destruct H as [H|H]; [now rewrite encodable_forallb in H|].
    rewrite (awaitAll_rejected _ H). cbn [bind]. repeat split. eauto.
  - repeat split. eauto.
Qed.

(** X17.  A search issues at most five requests and one for every
    piece of the split at spaces; unless a text cannot be encoded, it
    issues at least two. *)
Theorem batch_size (w : Wide.World) (query p : Wide.jsstring) (s : Wide.State) :
  query <> [] ->
  Wide.preprocessSearchTerm toLowerCase query = Wide.VString p ->
  List.length (Wide.dispatched (Wide.fetchMovies toLowerCase scorer w query s))
  <= List.length (Wide.dispatched s) + 5
     + (if Wide.includes p [Wide.space] then List.length (Wide.split Wide.space p) else 0) /\
  (forallb Wide.wellFormed (Wide.batchOf toLowerCase p) = false \/
   List.length (Wide.dispatched s) + 2
   <= List.length (Wide.dispatched (Wide.fetchMovies toLowerCase scorer w query s))).
Proof.
  intros Hq Hp.
  assert (Wide.dispatched (Wide.fetchMovies toLowerCase scorer w query s)
          = Wide.dispatched s
            ++ map Wide.SearchMovie (Wide.encodablePrefix (Wide.batchOf toLowerCase p)))
    as ->.
  { rewrite (wide_fetchMovies_string w query p s Hq Hp). cbv zeta.
    destruct (forallb Wide.wellFormed (Wide.batchOf toLowerCase p)); [|reflexivity].
    destruct (rankedOf w query (Wide.batchOf toLowerCase p)) as [[|top rest]|e];
      try reflexivity.
    destruct (Wide.updateSearchCount w query top); reflexivity. }
  rewrite length_app, length_map.
  pose proof (searchQueries_length p (Wide.variationsOf toLowerCase p)) as L.
  pose proof (slice_1_4_length (Wide.variationsOf toLowerCase p)) as L3.
  fold (Wide.batchOf toLowerCase p) in L. split.
  - destruct (encodablePrefix_firstn (Wide.batchOf toLowerCase p)) as (n & ->).
    rewrite length_firstn. lia.
  - destruct (forallb Wide.wellFormed (Wide.batchOf toLowerCase p)) eqn:He; [right|now left].
    rewrite (encodablePrefix_all _ He). lia.
Qed.

End WideBatch.

(** *** Queries without surrogates *)

Lemma noSurrogate_wellFormed s : Wide.noSurrogate s = true -> Wide.wellFormed s = true.
Proof.
  induction s as [|c s IH]; [reflexivity|]. cbn [Wide.noSurrogate forallb Wide.wellFormed].
  intros H. apply andb_true_iff in H as [Hc Hs]. apply andb_true_iff in Hc as [Hh Hl].
  apply negb_true_iff in Hh. rewrite Hh, Hl. now apply IH.
Qed.

Lemma noSurrogate_app a b :
  Wide.noSurrogate (a ++ b) = Wide.noSurrogate a && Wide.noSurrogate b.
Proof. apply forallb_app. Qed.

Lemma noSurrogate_firstn n s : Wide.noSurrogate s = true -> Wide.noSurrogate (firstn n s) = true.
Proof.
  revert n. induction s as [|c s IH]; intros [|n]; try reflexivity.
  cbn [firstn Wide.noSurrogate forallb]. intros H. apply andb_true_iff in H as [-> Hs].
  now apply IH.
Qed.

Lemma noSurrogate_skipn n s : Wide.noSurrogate s = true -> Wide.noSurrogate (skipn n s) = true.
Proof.
  revert n. induction s as [|c s IH]; intros [|n]; try easy.
  cbn [skipn Wide.noSurrogate forallb]. intros H. apply andb_true_iff in H as [_ Hs].
  now apply IH.
Qed.

Lemma noSurrogate_substring s a b :
  Wide.noSurrogate s = true -> Wide.noSurrogate (Wide.substring s a b) = true.
Proof. intros H. unfold Wide.substring. now apply noSurrogate_firstn, noSurrogate_skipn. Qed.

Lemma noSurrogate_split sep s :
  Wide.noSurrogate s = true -> forallb Wide.noSurrogate (Wide.split sep s) = true.
Proof.
  induction s as [|c s IH]; [reflexivity|]. cbn [Wide.noSurrogate forallb Wide.split].
  intros H. apply andb_true_iff in H as [Hc Hs]. specialize (IH Hs).
  destruct (c =? sep)%N; [exact IH|].
  destruct (Wide.split sep s) as [|w ws]; cbn [forallb Wide.noSurrogate] in *.
  - now rewrite Hc.
  - apply andb_true_iff in IH as [Hw Hws]. fold (Wide.noSurrogate w). now rewrite Hc, Hw, Hws.
Qed.

Lemma substitutes_noSurrogate key subs :
  Wide.getProperty Wide.substitutions key = Wide.Own subs ->
  forallb Wide.noSurrogate subs = true.
Proof.
  unfold Wide.getProperty.
  destruct (find _ Wide.substitutions) as [kv|] eqn:F.
  - intros [= <-]. apply find_some in F as [Hin _].
    assert (A : forallb (fun entry => forallb Wide.noSurrogate (snd entry)) Wide.substitutions = true)
      by reflexivity.
    rewrite forallb_forall in A. now apply A.
  - destruct (existsb _ _); discriminate.
Qed.

Lemma pushVariations_noSurrogate lowerTerm i subs : forall vs,
  Wide.noSurrogate lowerTerm = true ->
  forallb Wide.noSurrogate subs = true ->
  forallb Wide.noSurrogate vs = true ->
  exists vs', forM subs (Wide.pushVariation lowerTerm i) vs = Ok vs'
              /\ forallb Wide.noSurrogate vs' = true.
Proof.
  induction subs as [|sub subs IH]; intros vs Hl Hs Hvs;
    [exists vs; split; [reflexivity | exact Hvs]|].
  cbn [forallb] in Hs. apply andb_true_iff in Hs as [Hsub Hsubs].
  cbn [forM]. unfold Wide.pushVariation at 1.
  destruct (_ && _); cbn [bind]; apply (IH _ Hl Hsubs); [|exact Hvs].
  rewrite forallb_app, Hvs. cbn [forallb]. rewrite andb_true_r.
  rewrite !noSurrogate_app, Hsub. unfold Wide.substringFrom.
  now rewrite noSurrogate_substring, noSurrogate_skipn.
Qed.

Section WidePlain.
Variable toLowerCase : Wide.jsstring -> Wide.jsstring.

Lemma variations_noSurrogate p :
  Wide.noSurrogate p = true -> Wide.noSurrogate (toLowerCase p) = true ->
  forallb Wide.noSurrogate (Wide.variationsOf toLowerCase p) = true.
Proof.
  intros Hp Hl. unfold Wide.variationsOf, Wide.generateSearchVariations.
  match goal with |- context [forM ?l ?body ?s0] =>
    destruct (forM_invariant (fun vs => forallb Wide.noSurrogate vs = true) body l) with (s := s0)
      as (vs & -> & Hvs) end.
  - intros i vs Hvs.
    destruct (Wide.getProperty Wide.substitutions (Wide.charAt (toLowerCase p) i))
      as [subs| |] eqn:G.
    + apply pushVariations_noSurrogate; [exact Hl | | exact Hvs].
      now apply (substitutes_noSurrogate (Wide.charAt (toLowerCase p) i)).
    + exfalso. revert G. unfold Wide.getProperty.
      destruct (find _ Wide.substitutions); [discriminate|].
      rewrite prototype_keys_long by apply charAt_short. discriminate.
    + exists vs. split; [reflexivity | exact Hvs].
  - cbn [forallb]. now rewrite Hp.
  - exact Hvs.
Qed.

(** X28.  When neither the processed query nor its lower-case form holds
    a surrogate code unit, every text of the batch can be encoded: the
    substitutions, the split and the cut to three code units bring no
    surrogate in. *)
Theorem plain_query_encodable (p : Wide.jsstring) :
  Wide.noSurrogate p = true -> Wide.noSurrogate (toLowerCase p) = true ->
  Forall Wide.encodable (Wide.batchOf toLowerCase p).
Proof.
  intros Hp Hl. apply Forall_forall. intros text Hin. apply noSurrogate_wellFormed.
  pose proof (variations_noSurrogate p Hp Hl) as Hv.
  unfold Wide.batchOf, Wide.searchQueries in Hin.
  apply in_app_or in Hin as [[<-|[]]|Hin]; [exact Hp|].
  apply in_app_or in Hin as [Hin|Hin].
  - unfold slice in Hin. apply In_firstn, In_skipn in Hin.
    rewrite forallb_forall in Hv. now apply Hv.
  - apply in_app_or in Hin as [Hin|[<-|[]]]; [|now apply noSurrogate_substring].
    destruct (Wide.includes p [Wide.space]); [|destruct Hin].
    pose proof (noSurrogate_split Wide.space p Hp) as Hs.
    rewrite forallb_forall in Hs. now apply Hs.
Qed.

End WidePlain.

Lemma plain_query_encodable_witness :
  Forall Wide.encodable (Wide.batchOf Wide.lowerASCII (Wide.js "iron man")).
Proof.
  apply (plain_query_encodable Wide.lowerASCII (Wide.js "iron man")); reflexivity.
Defined.

Lemma issued_requests_witness :
  Wide.dispatched
    (Wide.fetchMovies Wide.lowerASCII Wide.scoreNarrow Wide.catalogWorld Wide.grinning
       (Wide.showing []))
  = Wide.dispatched (Wide.showing [])
    ++ map Wide.SearchMovie
         (Wide.encodablePrefix (Wide.batchOf Wide.lowerASCII Wide.grinning)).
Proof.
  apply (issued_requests Wide.lowerASCII Wide.scoreNarrow Wide.catalogWorld Wide.grinning
           Wide.grinning (Wide.showing [])).
  - discriminate.
  - reflexivity.
Defined.

Lemma dispatched_batch_witness :
  Wide.generateSearchVariations Wide.lowerASCII (Wide.VString (Wide.js "iron man"))
  = Ok (Wide.variationsOf Wide.lowerASCII (Wide.js "iron man")) /\
  Wide.dispatched
    (Wide.fetchMovies Wide.lowerASCII Wide.scoreNarrow Wide.catalogWorld (Wide.js "ironman")
       (Wide.showing []))
  = Wide.dispatched (Wide.showing [])
    ++ map Wide.SearchMovie
         ([Wide.js "iron man"]
          ++ slice (Wide.variationsOf Wide.lowerASCII (Wide.js "iron man")) 1 4
          ++ (if Wide.includes (Wide.js "iron man") [Wide.space]
              then Wide.split Wide.space (Wide.js "iron man") else [])
          ++ [Wide.substring (Wide.js "iron man") 0 3]).
Proof.
  apply (dispatched_batch Wide.lowerASCII Wide.scoreNarrow Wide.catalogWorld
           (Wide.js "ironman") (Wide.js "iron man") (Wide.showing [])).
  - discriminate.
  - reflexivity.
  - apply encodable_forallb. reflexivity.
Defined.

Example dispatched_ironman_wide :
  Wide.dispatched
    (Wide.fetchMovies Wide.lowerASCII Wide.scoreNarrow Wide.catalogWorld (Wide.js "ironman")
       (Wide.showing []))
  = map (fun text => Wide.SearchMovie (Wide.js text))
      ["iron man"; "eron man"; "aron man"; "irun man"; "iron"; "man"; "iro"].
Proof. vm_compute. reflexivity. Qed.

Lemma failed_batch_outcome_witness :
  Wide.fetchMovies Wide.lowerASCII Wide.scoreNarrow Wide.serviceErrorWorld (Wide.js "iron")
    (Wide.showing samplePage)
  = Wide.mkState [] "" false
      (map (fun text => Wide.SearchMovie (Wide.js text)) ["iron"; "eron"; "aron"; "irun"; "iro"])
      [] [].
Proof.
  apply (failed_batch_outcome Wide.lowerASCII Wide.scoreNarrow Wide.serviceErrorWorld
           (Wide.js "iron") (Wide.js "iron") (Wide.showing samplePage)).
  - discriminate.
  - reflexivity.
  - apply encodable_forallb. reflexivity.
  - vm_compute. repeat constructor.
Defined.

(** The query [ab] followed by U+1F600: the first three code units end
    in the high half of the pair.  Three requests are issued, then
    [encodeURIComponent] throws. *)
Lemma unencodable_text_fails_search_witness :
  Wide.fetchMovies Wide.lowerASCII Wide.scoreNarrow Wide.catalogWorld Wide.grinning
    (Wide.showing samplePage)
  = Wide.mkState samplePage errorText false
      (map Wide.SearchMovie
         [Wide.grinning;
          Wide.js "eb" ++ [55357%N; 56832%N];
          Wide.js "ib" ++ [55357%N; 56832%N]])
      [] [URIError].
Proof.
  apply (unencodable_text_fails_search Wide.lowerASCII Wide.scoreNarrow Wide.catalogWorld
           Wide.grinning Wide.grinning (Wide.showing samplePage)).
  - discriminate.
  - reflexivity.
  - rewrite encodable_forallb. discriminate.
Defined.

Lemma one_failure_discards_batch_witness :
  Wide.movieList (Wide.fetchMovies Wide.lowerASCII Wide.scoreNarrow Wide.flakyWorld
                    (Wide.js "iron") (Wide.showing samplePage)) = samplePage /\
  Wide.errorMessage (Wide.fetchMovies Wide.lowerASCII Wide.scoreNarrow Wide.flakyWorld
                       (Wide.js "iron") (Wide.showing samplePage)) = errorText /\
  Wide.isLoading (Wide.fetchMovies Wide.lowerASCII Wide.scoreNarrow Wide.flakyWorld
                    (Wide.js "iron") (Wide.showing samplePage)) = false /\
  Wide.recorded (Wide.fetchMovies Wide.lowerASCII Wide.scoreNarrow Wide.flakyWorld
                   (Wide.js "iron") (Wide.showing samplePage)) = [] /\
  exists e, (e = URIError \/ e = NetworkError) /\
    Wide.logged (Wide.fetchMovies Wide.lowerASCII Wide.scoreNarrow Wide.flakyWorld
                   (Wide.js "iron") (Wide.showing samplePage)) = [] ++ [e].
Proof.
  apply (one_failure_discards_batch Wide.lowerASCII Wide.scoreNarrow Wide.flakyWorld
           (Wide.js "iron") (Wide.js "iron") (Wide.showing samplePage)).
  - discriminate.
  - reflexivity.
  - right. right. left. reflexivity.
Defined.

Lemma batch_size_witness :
  List.length (Wide.dispatched
                 (Wide.fetchMovies Wide.lowerASCII Wide.scoreNarrow Wide.catalogWorld
                    (Wide.js "ironman") (Wide.showing [])))
  <= List.length (Wide.dispatched (Wide.showing [])) + 5
     + (if Wide.includes (Wide.js "iron man") [Wide.space]
        then List.length (Wide.split Wide.space (Wide.js "iron man")) else 0) /\
  (forallb Wide.wellFormed (Wide.batchOf Wide.lowerASCII (Wide.js "iron man")) = false \/
   List.length (Wide.dispatched (Wide.showing [])) + 2
   <= List.length (Wide.dispatched
                     (Wide.fetchMovies Wide.lowerASCII Wide.scoreNarrow Wide.catalogWorld
                        (Wide.js "ironman") (Wide.showing [])))).
Proof.
  apply (batch_size Wide.lowerASCII Wide.scoreNarrow Wide.catalogWorld
           (Wide.js "ironman") (Wide.js "iron man") (Wide.showing [])).
  - discriminate.
  - reflexivity.
Defined.
